(** * react-native-onyx: deep merge, in-memory cache and write sequencer

    A shallow embedding of [fastMerge] (lib/fastMerge.ts), of the class
    [OnyxCache] and of the class [SyncQueue] (lib/SyncQueue.ts), with the
    properties their specification states.

    Modelling conventions.
    - A JavaScript value is a term of [value].  Plain objects are finite maps
      from property names to values: the own enumerable string-keyed
      properties.  Members inherited from [Object.prototype] are not part of
      the model, so the [in] operator on an object is membership among its
      own properties.
    - JavaScript [Set]s keep insertion order and are lists without
      duplicates ([JSSet]).
    - A method that mutates [this] is a function from the state before to a
      result and the state after; a [throw] is the completion [Throw].
    - Promise callbacks run as separate steps of a transition system whose
      events are the calls made by the environment and the settlements of
      the promises it owns. *)

From stdpp Require Import gmap strings list fin_maps pretty sorting.
From Stdlib Require Import ZArith.

Set Default Proof Using "Type".

(** ** Values *)

#[warnings="-register-all"]
Inductive value : Type :=
  | VUndefined
  | VNull
  | VBool (b : bool)
  | VNum (z : Z)
  | VStr (s : string)
  | VArr (items : list value)
  | VObj (props : gmap string value)
  | VDate (ms : Z)
  | VRegExp (source : string).

(** Exceptions and completions.  [OutOfFuel] is an artefact of the fuelled
    recursion below; [deepmerge_enough_fuel] shows it is never returned. *)
Inductive exn : Type :=
  | TypeError (msg : string)
  | Error (msg : string).

Inductive comp (A : Type) : Type :=
  | Ret (a : A)
  | Throw (e : exn)
  | OutOfFuel.
Arguments Ret {A} a.
Arguments Throw {A} e.
Arguments OutOfFuel {A}.

#[global] Instance comp_bind : MBind comp := λ A B k c,
  match c with
  | Ret a => k a
  | Throw e => Throw e
  | OutOfFuel => OutOfFuel
  end.

(** [list.forEach] with a body that may throw, threading an accumulator. *)
Fixpoint forEachM {A S} (body : S → A → comp S) (acc : S) (l : list A) : comp S :=
  match l with
  | [] => Ret acc
  | x :: l' => acc' ← body acc x; forEachM body acc' l'
  end.

(** ** Primitive operations on values *)

(** [Array.isArray] *)
Definition isArray (v : value) : bool :=
  match v with VArr _ => true | _ => false end.

(** Characters of a string as one-character strings. *)
Fixpoint chars (s : string) : list value :=
  match s with
  | EmptyString => []
  | String c s' => VStr (String c EmptyString) :: chars s'
  end.

(** The index properties ["0"], ["1"], ... of an array or string. *)
Definition indexed (l : list value) : gmap string value :=
  list_to_map (imap (λ i v, (pretty i, v)) l).

(** Own enumerable properties, where the value can be converted to an object
    ([null] and [undefined] cannot). *)
Definition ownProps (v : value) : option (gmap string value) :=
  match v with
  | VUndefined | VNull => None
  | VObj m => Some m
  | VArr l => Some (indexed l)
  | VStr s => Some (indexed (chars s))
  | VBool _ | VNum _ | VDate _ | VRegExp _ => Some ∅
  end.

(** [Object.keys(v)]: throws a [TypeError] on [null] and [undefined]. *)
Definition objectKeys (v : value) : comp (list string) :=
  match ownProps v with
  | Some m => Ret (map fst (map_to_list m))
  | None => Throw (TypeError "Cannot convert undefined or null to object")
  end.

(** [v[key]] on a value that is not [null] or [undefined]. *)
Definition getProp (v : value) (key : string) : value :=
  match ownProps v with
  | Some m => default VUndefined (m !! key)
  | None => VUndefined
  end.

(** [key in v]: a [TypeError] unless [v] is an object; [None] stands for the
    throw.  An array also has the non-enumerable property [length]. *)
Definition hasProperty (v : value) (key : string) : option bool :=
  match v with
  | VObj m => Some (bool_decide (is_Some (m !! key)))
  | VArr l => Some (bool_decide (is_Some (indexed l !! key)) || bool_decide (key = "length"))
  | VDate _ | VRegExp _ => Some false
  | VUndefined | VNull | VBool _ | VNum _ | VStr _ => None
  end.

(** [Object.hasOwnProperty.call(v, key) && Object.propertyIsEnumerable.call(v, key)] *)
Definition ownEnumerable (v : value) (key : string) : bool :=
  match ownProps v with
  | Some m => bool_decide (is_Some (m !! key))
  | None => false
  end.

(** ** The [deepmerge] package (version 4), imported by [fastMerge.ts]

    The package is a dependency of the repository, not part of it; the
    definitions below follow the functions of its [index.js] one by one
    ([emptyTarget], [cloneUnlessOtherwiseSpecified], [getKeys],
    [propertyIsOnObject], [propertyIsUnsafe], [mergeObject], [deepmerge]),
    with the two options that [fastMerge] passes. *)
Module Deepmerge.

Record options : Type := {
  isMergeableObject : value → bool;
  arrayMerge : value → value → value;
}.

Definition emptyTarget (val : value) : value :=
  if isArray val then VArr [] else VObj ∅.

(** No symbol-keyed properties exist in the model, so [getKeys] is
    [Object.keys]. *)
Definition getKeys (target : value) : comp (list string) := objectKeys target.

(** [try { return property in object } catch (_) { return false }] *)
Definition propertyIsOnObject (object : value) (property : string) : bool :=
  match hasProperty object property with
  | Some b => b
  | None => false
  end.

Definition propertyIsUnsafe (target : value) (key : string) : bool :=
  propertyIsOnObject target key && negb (ownEnumerable target key).

Section Body.
Context (opts : options).
(** The recursive call to [deepmerge] with the same options. *)
Context (deepmerge : value → value → comp value).

Definition cloneUnlessOtherwiseSpecified (val : value) : comp value :=
  if isMergeableObject opts val
  then deepmerge (emptyTarget val) val
  else Ret val.

Definition mergeObject (target source : value) : comp value :=
  destination ←
    (if isMergeableObject opts target
     then
       keys ← getKeys target;
       forEachM (λ destination key,
           v ← cloneUnlessOtherwiseSpecified (getProp target key);
           Ret (<[key := v]> destination))
         (∅ : gmap string value) keys
     else Ret ∅);
  keys ← getKeys source;
  destination ←
    forEachM (λ destination key,
        if propertyIsUnsafe target key then Ret destination
        else if propertyIsOnObject target key
                && isMergeableObject opts (getProp source key)
        then
          v ← deepmerge (getProp target key) (getProp source key);
          Ret (<[key := v]> destination)
        else
          v ← cloneUnlessOtherwiseSpecified (getProp source key);
          Ret (<[key := v]> destination))
      destination keys;
  Ret (VObj destination).

Definition deepmerge_body (target source : value) : comp value :=
  let sourceIsArray := isArray source in
  let targetIsArray := isArray target in
  let sourceAndTargetTypesMatch := Bool.eqb sourceIsArray targetIsArray in
  if negb sourceAndTargetTypesMatch
  then cloneUnlessOtherwiseSpecified source
  else if sourceIsArray
  then Ret (arrayMerge opts target source)
  else mergeObject target source.
End Body.

Fixpoint deepmerge_fuel (fuel : nat) (opts : options) (target source : value)
  : comp value :=
  match fuel with
  | O => OutOfFuel
  | S fuel' => deepmerge_body opts (deepmerge_fuel fuel' opts) target source
  end.

End Deepmerge.

(** Size of a value.  A call of [deepmerge] on a target and a source of the
    same kind recurses on arguments of smaller total size; a call on an
    array and a non-array first recurses on an empty target of the source's
    kind (hence the successor in the fuel of [deepmerge]). *)
Fixpoint vsize (v : value) : nat :=
  match v with
  | VArr l => S (foldr (λ x acc, vsize x + acc) 0 l)
  | VObj m => S (map_fold (λ _ x acc, vsize x + acc) 0 m)
  | _ => 1
  end.

Definition deepmerge (target source : value) (opts : Deepmerge.options) : comp value :=
  Deepmerge.deepmerge_fuel (S (vsize target + vsize source)) opts target source.

(** ** lib/fastMerge.ts *)

(** [val != null ? typeof val === 'object' : false], and neither a [RegExp]
    nor a [Date]. *)
Definition isMergeableObject (val : value) : bool :=
  let nonNullObject :=
    match val with
    | VUndefined | VNull => false
    | VArr _ | VObj _ | VDate _ | VRegExp _ => true
    | VBool _ | VNum _ | VStr _ => false
    end in
  nonNullObject
  && negb (match val with VRegExp _ => true | _ => false end)
  && negb (match val with VDate _ => true | _ => false end).

Definition arrayMerge (_destinationArray sourceArray : value) : value :=
  sourceArray.

Definition fastMergeOptions : Deepmerge.options :=
  {| Deepmerge.isMergeableObject := isMergeableObject;
     Deepmerge.arrayMerge := arrayMerge |}.

Definition fastMerge (target source : value) : comp value :=
  deepmerge target source fastMergeOptions.

Definition num (n : Z) : value := VNum n.

(** ** A closed form for [fastMerge] *)

(** The properties that [mergeObject] copies from its target. *)
Definition objProps (t : value) : gmap string value :=
  match t with VObj A => A | _ => ∅ end.

(** What [fastMerge] returns when it does not throw. *)
Fixpoint merged (t s : value) {struct s} : value :=
  match s with
  | VArr _ => s
  | VObj B =>
      if isArray t then s
      else VObj (map_imap (λ k sv,
                    Some (match objProps t !! k with
                          | Some tv => if isMergeableObject sv then merged tv sv else sv
                          | None => sv
                          end)) B ∪ objProps t)
  | _ => if isArray t then s else VObj (default ∅ (ownProps s) ∪ objProps t)
  end.

Definition isNullish (v : value) : bool :=
  match v with VUndefined | VNull => true | _ => false end.

Definition fastMerge_result (t s : value) : comp value :=
  if negb (isArray t) && isNullish s
  then Throw (TypeError "Cannot convert undefined or null to object")
  else Ret (merged t s).

(** The value that the second loop of [mergeObject] assigns to [key]. *)
Definition pick (t : value) (key : string) (sv : value) : value :=
  match objProps t !! key with
  | Some tv => if isMergeableObject sv then merged tv sv else sv
  | None => sv
  end.

(** The measure that decreases along the recursion of [deepmerge]. *)
Definition measure (t s : value) : nat :=
  vsize t + vsize s + (if Bool.eqb (isArray s) (isArray t) then 0 else 1).

(** ** The specification's reading of the merge *)






(** ** Insertion-ordered sets of strings (JavaScript [Set<string>]) *)
Module JSSet.
Definition t : Type := list string.

Definition empty : t := [].
Definition has (k : string) (s : t) : bool := bool_decide (k ∈ s).
(** [s.add(k)]: appended at the end unless already a member. *)
Definition add (k : string) (s : t) : t := if has k s then s else s ++ [k].
(** [s.delete(k)] *)
Definition delete (k : string) (s : t) : t := filter (λ x, x ≠ k) s.
(** [s.size] *)
Definition size (s : t) : nat := length s.
(** [new Set(iterable)] *)
Definition of_list (l : list string) : t := foldl (λ s k, add k s) empty l.
(** [[...s]] and [Array.from(s)] *)
Definition to_list (s : t) : list string := s.
End JSSet.

(** [Array.prototype.slice(start)] on an integer [start]: a negative start
    counts from the end, and [slice(-0)] is [slice(0)]. *)
Definition slice {A} (start : Z) (l : list A) : list A :=
  let len := Z.of_nat (length l) in
  let k := if (start <? 0)%Z then Z.max (len + start) 0 else Z.min start len in
  drop (Z.to_nat k) l.

(** [_.difference(array, others)] *)
Definition _difference (array others : list string) : list string :=
  filter (λ x, x ∉ others) array.

(** [_.isObject]: functions and non-null objects. *)
Definition _isObject (obj : value) : bool :=
  match obj with
  | VArr _ | VObj _ | VDate _ | VRegExp _ => true
  | VUndefined | VNull | VBool _ | VNum _ | VStr _ => false
  end.

Definition _isArray (obj : value) : bool := isArray obj.

(** [_.keys(obj)]: [Object.keys] on objects, the empty array otherwise. *)
Definition _keys (obj : value) : list string :=
  if _isObject obj
  then match ownProps obj with Some m => map fst (map_to_list m) | None => [] end
  else [].


(** [Object.assign({}, v)]: a fresh object with the own enumerable
    properties of [v]. *)
Definition objectAssignEmpty (v : value) : gmap string value :=
  default ∅ (ownProps v).

(** ** Promises

    A promise is either owned by the environment ([Ext], settled by the
    environment) or was returned by [promise.finally(...)] inside
    [captureTask] ([Wrapper], settled by the reaction job of its callback). *)
Inductive promise : Type :=
  | Ext (id : nat)
  | Wrapper (id : nat).

#[global] Instance promise_eq_dec : EqDecision promise.
Proof. solve_decision. Defined.

Inductive settlement : Type := Fulfilled | Rejected.

(** ** The class [OnyxCache] *)
Module OnyxCache.

Record t : Type := mk {
  storageKeys : JSSet.t;
  recentKeys : JSSet.t;
  storageMap : gmap string value;
  pendingPromises : gmap string promise;
  maxRecentKeysSize : Z;
}.

(** [constructor()] *)
Definition new : t :=
  {| storageKeys := JSSet.empty;
     recentKeys := JSSet.empty;
     storageMap := ∅;
     pendingPromises := ∅;
     maxRecentKeysSize := 0 |}.

Definition with_storageKeys (ks : JSSet.t) (c : t) : t :=
  mk ks (recentKeys c) (storageMap c) (pendingPromises c) (maxRecentKeysSize c).
Definition with_recentKeys (ks : JSSet.t) (c : t) : t :=
  mk (storageKeys c) ks (storageMap c) (pendingPromises c) (maxRecentKeysSize c).
Definition with_storageMap (m : gmap string value) (c : t) : t :=
  mk (storageKeys c) (recentKeys c) m (pendingPromises c) (maxRecentKeysSize c).
Definition with_pendingPromises (m : gmap string promise) (c : t) : t :=
  mk (storageKeys c) (recentKeys c) (storageMap c) m (maxRecentKeysSize c).

(** [this.storageMap[key]] *)
Definition read (key : string) (c : t) : value :=
  default VUndefined (storageMap c !! key).

Definition getAllKeys (c : t) : list string :=
  JSSet.to_list (storageKeys c).

Definition addToAccessedKeys (key : string) (c : t) : t :=
  with_recentKeys (JSSet.add key (JSSet.delete key (recentKeys c))) c.

Definition getValue (key : string) (c : t) : value * t :=
  let c := addToAccessedKeys key c in
  (read key c, c).


Definition addKey (key : string) (c : t) : t :=
  with_storageKeys (JSSet.add key (storageKeys c)) c.

Definition set (key : string) (val : value) (c : t) : value * t :=
  let c := addKey key c in
  let c := addToAccessedKeys key c in
  let c := with_storageMap (<[key := val]> (storageMap c)) c in
  (val, c).

Definition drop (key : string) (c : t) : t :=
  let c := with_storageMap (delete key (storageMap c)) c in
  let c := with_storageKeys (JSSet.delete key (storageKeys c)) c in
  with_recentKeys (JSSet.delete key (recentKeys c)) c.

Definition merge_error : exn :=
  Error "data passed to cache.merge() must be an Object of onyx key/value pairs".

(** The completion of the call and the state it leaves. *)
Definition merge (data : value) (c : t) : comp unit * t :=
  if negb (_isObject data) || _isArray data then (Throw merge_error, c)
  else
    match fastMerge (VObj (storageMap c)) data with
    | Ret merged =>
        let c := with_storageMap (objectAssignEmpty merged) c in
        let storageKeys := getAllKeys c in
        let mergedKeys := _keys data in
        let c := with_storageKeys (JSSet.of_list (storageKeys ++ mergedKeys)) c in
        let c := foldl (λ c key, addToAccessedKeys key c) c mergedKeys in
        (Ret (), c)
    | Throw e => (Throw e, c)
    | OutOfFuel => (OutOfFuel, c)
    end.

Definition hasPendingTask (taskName : string) (c : t) : bool :=
  bool_decide (is_Some (pendingPromises c !! taskName)).

Definition getTaskPromise (taskName : string) (c : t) : option promise :=
  pendingPromises c !! taskName.

(** Remove keys that don't fall into the range of recently used keys. *)
Definition removeLeastRecentlyUsedKeys (c : t) : t :=
  if (Z.of_nat (JSSet.size (recentKeys c)) <=? maxRecentKeysSize c)%Z then c
  else
    let recentlyAccessed := slice (- maxRecentKeysSize c) (JSSet.to_list (recentKeys c)) in
    let storageKeys := _keys (VObj (storageMap c)) in
    let keysToRemove := _difference storageKeys recentlyAccessed in
    foldl (λ c key, drop key c) c keysToRemove.

Definition setRecentKeysLimit (limit : Z) (c : t) : t :=
  mk (storageKeys c) (recentKeys c) (storageMap c) (pendingPromises c) limit.

End OnyxCache.

(** The guard of [merge]. *)
Definition merge_rejects (data : value) : bool :=
  negb (_isObject data) || _isArray data.

(** Every key that holds an entry in the value map is a known storage key. *)
Definition known_keys_inv (c : OnyxCache.t) : Prop :=
  ∀ k, is_Some (OnyxCache.storageMap c !! k) → k ∈ OnyxCache.storageKeys c.

(** The cache after [set("a", 1)] and then [set("b", 2)]. *)
Definition cache_ab : OnyxCache.t :=
  (OnyxCache.set "b" (num 2) (OnyxCache.set "a" (num 1) OnyxCache.new).2).2.

(** ** The cache together with the promises it has captured

    [captureTask] calls [promise.finally(callback)].  The engine keeps, for
    every promise returned by that call, either a reaction waiting on the
    captured promise, or, once the captured promise has settled, a job in
    the microtask queue that will run the callback.  The callback is always
    [() => { delete this.pendingPromises[taskName] }], so a reaction is the
    captured promise, the task name and the promise that [finally] returned. *)
Module Runtime.

Record t : Type := mk {
  cache : OnyxCache.t;
  (** The settlement of each settled promise; [None] for a pending one. *)
  settled : promise → option settlement;
  (** Reactions registered by [finally] on promises that are pending. *)
  reactions : list (promise * string * promise);
  (** The microtask queue: callbacks to run, with the promise each one
      settles and the settlement it passes on. *)
  jobs : list (string * promise * settlement);
  (** Number of promises created by [finally] so far. *)
  nextWrapper : nat;
}.

Definition init : t :=
  {| cache := OnyxCache.new;
     settled := λ _, None;
     reactions := [];
     jobs := [];
     nextWrapper := 0 |}.

Definition with_cache (c : OnyxCache.t) (rt : t) : t :=
  mk c (settled rt) (reactions rt) (jobs rt) (nextWrapper rt).

(** [promise.finally(() => { delete this.pendingPromises[taskName] })] *)
Definition finally (p : promise) (taskName : string) (rt : t) : promise * t :=
  let q := Wrapper (nextWrapper rt) in
  match settled rt p with
  | Some o =>
      (q, mk (cache rt) (settled rt) (reactions rt)
             (jobs rt ++ [(taskName, q, o)]) (S (nextWrapper rt)))
  | None =>
      (q, mk (cache rt) (settled rt) (reactions rt ++ [(p, taskName, q)])
             (jobs rt) (S (nextWrapper rt)))
  end.

Definition captureTask (taskName : string) (p : promise) (rt : t) : promise * t :=
  let '(q, rt) := finally p taskName rt in
  let c := cache rt in
  let c := OnyxCache.with_pendingPromises (<[taskName := q]> (OnyxCache.pendingPromises c)) c in
  (q, with_cache c rt).

Definition waits_on (p : promise) (r : promise * string * promise) : Prop :=
  r.1.1 = p.

#[global] Instance waits_on_dec p r : Decision (waits_on p r).
Proof. unfold waits_on. apply _. Defined.

(** A pending promise settles: its reactions become jobs, in the order of
    their registration.  Settling a settled promise does nothing. *)
Definition settle (p : promise) (o : settlement) (rt : t) : t :=
  match settled rt p with
  | Some _ => rt
  | None =>
      mk (cache rt)
         (λ p', if decide (p' = p) then Some o else settled rt p')
         (filter (λ r, ¬ waits_on p r) (reactions rt))
         (jobs rt ++ map (λ r, (r.1.2, r.2, o)) (filter (waits_on p) (reactions rt)))
         (nextWrapper rt)
  end.

(** The callback that [captureTask] passes to [finally]. *)
Definition cleanup (taskName : string) (rt : t) : t :=
  let c := cache rt in
  with_cache (OnyxCache.with_pendingPromises
                (delete taskName (OnyxCache.pendingPromises c)) c) rt.

(** Run the first job of the microtask queue: the callback, then the
    settlement of the promise that [finally] returned. *)
Definition tick (rt : t) : t :=
  match jobs rt with
  | [] => rt
  | (taskName, q, o) :: rest =>
      let rt := mk (cache rt) (settled rt) (reactions rt) rest (nextWrapper rt) in
      let rt := cleanup taskName rt in
      settle q o rt
  end.



(** What the environment can do between two microtasks. *)
Inductive event : Type :=
  | ESet (key : string) (val : value)
  | EMerge (data : value)
  | EDrop (key : string)
  | EGetValue (key : string)
  | ERemoveLeastRecentlyUsedKeys
  | ESetRecentKeysLimit (limit : Z)
  | ECaptureTask (taskName : string) (p : promise)
  | ESettle (id : nat) (o : settlement)
  | ETick.

Definition step (rt : t) (e : event) : t :=
  match e with
  | ESet key val => with_cache (OnyxCache.set key val (cache rt)).2 rt
  | EMerge data => with_cache (OnyxCache.merge data (cache rt)).2 rt
  | EDrop key => with_cache (OnyxCache.drop key (cache rt)) rt
  | EGetValue key => with_cache (OnyxCache.getValue key (cache rt)).2 rt
  | ERemoveLeastRecentlyUsedKeys =>
      with_cache (OnyxCache.removeLeastRecentlyUsedKeys (cache rt)) rt
  | ESetRecentKeysLimit limit =>
      with_cache (OnyxCache.setRecentKeysLimit limit (cache rt)) rt
  | ECaptureTask taskName p => (captureTask taskName p rt).2
  | ESettle id o => settle (Ext id) o rt
  | ETick => tick rt
  end.

Definition exec (rt : t) (es : list event) : t := foldl step rt es.

End Runtime.


(** The events that call [captureTask] with [taskName], and those that
    settle the promise [Ext id]. *)
Definition captures (taskName : string) (e : Runtime.event) : bool :=
  match e with
  | Runtime.ECaptureTask n _ => bool_decide (n = taskName)
  | _ => false
  end.

Definition settles_ext (id : nat) (e : Runtime.event) : bool :=
  match e with
  | Runtime.ESettle i _ => bool_decide (i = id)
  | _ => false
  end.

Definition is_wrapper (q : promise) : Prop :=
  match q with Wrapper _ => True | Ext _ => False end.

(** No reaction and no job belongs to [taskName], and the promises that the
    microtask queue settles are promises made by [finally]. *)
Definition unused (taskName : string) (rt : Runtime.t) : Prop :=
  Forall (λ r, r.1.2 ≠ taskName ∧ is_wrapper r.2) (Runtime.reactions rt)
  ∧ Forall (λ j, j.1.1 ≠ taskName ∧ is_wrapper j.1.2) (Runtime.jobs rt).

(** The record of [taskName] is [q], the promise [Ext id] it was captured
    with is pending, and the cleanup of [taskName] waits on that promise. *)
Definition held (taskName : string) (id : nat) (q : promise) (rt : Runtime.t) : Prop :=
  OnyxCache.pendingPromises (Runtime.cache rt) !! taskName = Some q
  ∧ Runtime.settled rt (Ext id) = None
  ∧ Forall (λ r, (r.1.2 = taskName → r.1.1 = Ext id) ∧ is_wrapper r.2)
      (Runtime.reactions rt)
  ∧ Forall (λ j, j.1.1 ≠ taskName ∧ is_wrapper j.1.2) (Runtime.jobs rt).

(** ** lib/SyncQueue.ts

    The [n]-th call of [push] creates promise [n]; its [resolve] and
    [reject] functions are stored in the queue entry, so an entry is the
    pushed data and that number.  The worker [run] belongs to the
    environment and, as the constructor requires, returns a promise, which
    the environment settles later ([EWorkerSettles]).  The chain
    [run(data).then(resolve).catch(reject).finally(...)] then settles the
    promise of [push], and in a later microtask ([EFinally]) clears the flag
    and calls [process] again.  Between two such steps the environment may
    call the public methods [push], [abort] and [process]. *)
Module SyncQueue.
Section WithData.
Context {T : Type}.

Record entry : Type := mkEntry { data : T; id : nat }.

(** What an observer of the queue sees, in order of occurrence. *)
Inductive obs : Type :=
  | Started (i : nat)                   (* [this.run(data)] is called *)
  | Completed (i : nat) (o : settlement) (* the worker's promise settles *)
  | Settled (i : nat) (o : settlement).  (* the promise of [push] settles *)

Record t : Type := mk {
  queue : list entry;
  isProcessing : bool;
  (** Workers whose promise is pending. *)
  running : list nat;
  (** Workers whose promise has settled and whose [finally] callback has
      not run yet. *)
  finishing : list nat;
  (** Number of calls of [push] so far. *)
  pushed : nat;
  trace : list obs;
}.

(** [constructor(run)] *)
Definition new : t :=
  {| queue := []; isProcessing := false; running := []; finishing := [];
     pushed := 0; trace := [] |}.

Definition abort (s : t) : t :=
  mk [] false (running s) (finishing s) (pushed s) (trace s).

Definition process (s : t) : t :=
  if isProcessing s then s
  else
    match queue s with
    | [] => s
    | nextTask :: rest =>
        mk rest true (running s ++ [id nextTask]) (finishing s) (pushed s)
           (trace s ++ [Started (id nextTask)])
    end.

Definition push (d : T) (s : t) : nat * t :=
  let i := pushed s in
  let s := mk (queue s ++ [mkEntry d i]) (isProcessing s) (running s)
              (finishing s) (S (pushed s)) (trace s) in
  (i, process s).

(** The worker's promise for entry [i] settles: [resolve] or [reject] of
    the entry is called, and the [finally] callback is scheduled. *)
Definition workerSettles (i : nat) (o : settlement) (s : t) : t :=
  if bool_decide (i ∈ running s)
  then mk (queue s) (isProcessing s)
          (filter (λ j, j ≠ i) (running s)) (finishing s ++ [i]) (pushed s)
          (trace s ++ [Completed i o; Settled i o])
  else s.

(** The [finally] callback of the chain for entry [i]. *)
Definition finallyCallback (i : nat) (s : t) : t :=
  if bool_decide (i ∈ finishing s)
  then
    let s := mk (queue s) false (running s)
                (filter (λ j, j ≠ i) (finishing s)) (pushed s) (trace s) in
    process s
  else s.

Inductive event : Type :=
  | EPush (d : T)
  | EAbort
  | EProcess
  | EWorkerSettles (i : nat) (o : settlement)
  | EFinally (i : nat).

Definition step (s : t) (e : event) : t :=
  match e with
  | EPush d => (push d s).2
  | EAbort => abort s
  | EProcess => process s
  | EWorkerSettles i o => workerSettles i o s
  | EFinally i => finallyCallback i s
  end.

Definition exec (s : t) (es : list event) : t := foldl step s es.

Definition is_abort (e : event) : bool :=
  match e with EAbort => true | _ => false end.

(** In a trace, wherever the worker of [b] starts, the worker of every
    entry pushed before [b] has completed at an earlier position. *)
Definition ordered (tr : list obs) : Prop :=
  ∀ n a b,
    tr !! n = Some (Started b) → a < b →
    ∃ m o, m < n ∧ tr !! m = Some (Completed a o).

(** The numbers of the queued entries, oldest first. *)
Definition ids (s : t) : list nat := map id (queue s).

End WithData.
Arguments t : clear implicits.
Arguments entry : clear implicits.
Arguments event : clear implicits.
End SyncQueue.

(** Invariants of the queue, used in the proofs below. *)
Section SequencerInvariants.
Context {T : Type}.
Import SyncQueue.
Implicit Types (s : SyncQueue.t T).

(** Facts that hold in every state reached from [new], aborted or not. *)
Record wf s : Prop := {
  wf_ids : ∀ i, i ∈ ids s → i < pushed s;
  wf_nodup : NoDup (ids s);
  wf_started : ∀ i, Started i ∈ trace s → i < pushed s ∧ i ∉ ids s;
  wf_execning : ∀ i, i ∈ running s → Started i ∈ trace s;
  wf_settled : ∀ i o, Settled i o ∈ trace s → Started i ∈ trace s;
}.

(** Entry [i] was pushed, is not queued and its worker has not started. *)
Definition discarded (i : nat) s : Prop :=
  i < pushed s ∧ (i ∉ ids s) ∧ (Started i ∉ trace s).

(** Facts that hold in every state reached from [new] without [abort]. *)
Record serial s : Prop := {
  serial_wf : wf s;
  (** The queue holds the entries in the order of their numbers. *)
  serial_fifo : ∀ n m a b,
    ids s !! n = Some a → ids s !! m = Some b → n < m → a < b;
  (** An entry that was pushed is queued or its worker has started. *)
  serial_covered : ∀ i, i < pushed s → i ∈ ids s ∨ Started i ∈ trace s;
  (** A worker that has started is running or has completed. *)
  serial_done : ∀ i,
    Started i ∈ trace s → i ∈ running s ∨ ∃ o, Completed i o ∈ trace s;
  (** At most one chain is between the start of its worker and its
      [finally] callback, and the flag is set while there is one. *)
  serial_single : length (running s) + length (finishing s) ≤ 1;
  serial_busy : isProcessing s = false → running s = [] ∧ finishing s = [];
  serial_ordered : ordered (trace s);
}.

(** The state in which [push] calls [process]. *)
Definition enqueued (d : T) s : SyncQueue.t T :=
  mk (queue s ++ [mkEntry d (pushed s)]) (isProcessing s) (running s)
     (finishing s) (S (pushed s)) (trace s).
End SequencerInvariants.

(** The entries whose worker has been called, in the order of the calls. *)
Definition started (tr : list SyncQueue.obs) : list nat :=
  omap (λ o, match o with SyncQueue.Started i => Some i | _ => None end) tr.

Section SequencerProgressInvariants.
Context {T : Type}.
Import SyncQueue.
Implicit Types (s : SyncQueue.t T).

(** While the flag is clear nothing is queued, and a worker's outcome is
    always passed on to the promise of [push]. *)
Definition flag_inv s : Prop :=
  (isProcessing s = false → queue s = [])
  ∧ ∀ i o, Completed i o ∈ trace s → Settled i o ∈ trace s.

(** While the flag is set, exactly one chain is between the start of its
    worker and its [finally] callback. *)
Definition busy s : Prop :=
  isProcessing s = true → length (running s) + length (finishing s) = 1.

(** The entries that have started, then those still queued. *)
Definition line s : list nat := started (trace s) ++ ids s.

(** In every run the line is in strictly increasing order of the entries'
    numbers, all of which are numbers of calls of [push] made so far. *)
Definition line_sorted s : Prop :=
  StronglySorted lt (line s) ∧ Forall (λ i, i < pushed s) (line s).

End SequencerProgressInvariants.

(** ** Logging callback (lib/Logger.ts)

    The registered callback belongs to the environment; callbacks are told
    apart by a number, and a call of callback [n] with [{message, level}] is
    recorded as [(n, message, level)]. *)
Module Logger.

Inductive level : Type := alert | info.

Record t : Type := mk {
  (** [let logger: Logger | null] *)
  logger : option nat;
  (** The calls made to callbacks so far, oldest first. *)
  calls : list (nat * string * level);
}.

Definition init : t := {| logger := None; calls := [] |}.

Definition registerLogger (callback : nat) (s : t) : t :=
  mk (Some callback) (calls s).

(** [logger?.({message: `[Onyx] ${message}`, level})] *)
Definition send (message : string) (l : level) (s : t) : t :=
  match logger s with
  | Some callback => mk (logger s) (calls s ++ [(callback, "[Onyx] " +:+ message, l)])
  | None => s
  end.

Definition logAlert (message : string) (s : t) : t := send message alert s.
Definition logInfo (message : string) (s : t) : t := send message info s.

Inductive event : Type :=
  | ERegisterLogger (callback : nat)
  | ELogAlert (message : string)
  | ELogInfo (message : string).

Definition step (s : t) (e : event) : t :=
  match e with
  | ERegisterLogger callback => registerLogger callback s
  | ELogAlert message => logAlert message s
  | ELogInfo message => logInfo message s
  end.

Definition exec (s : t) (es : list event) : t := foldl step s es.

(** What a logging call hands to callback [callback]; nothing for a
    registration. *)
Definition payload (callback : nat) (e : event) : option (nat * string * level) :=
  match e with
  | ERegisterLogger _ => None
  | ELogAlert message => Some (callback, "[Onyx] " +:+ message, alert)
  | ELogInfo message => Some (callback, "[Onyx] " +:+ message, info)
  end.

Definition is_register (e : event) : bool :=
  match e with ERegisterLogger _ => true | _ => false end.

End Logger.

(** Facts about the cache that hold in every state reached from
    [OnyxCache.new]. *)
Record cache_inv (c : OnyxCache.t) : Prop := {
  ci_known : known_keys_inv c;
  (** Every key with an entry is among the recently used keys. *)
  ci_recent : ∀ k, is_Some (OnyxCache.storageMap c !! k) → k ∈ OnyxCache.recentKeys c;
  ci_nodup_recent : NoDup (OnyxCache.recentKeys c);
  ci_nodup_keys : NoDup (OnyxCache.storageKeys c);
}.

(** ** Metrics decoration (lib/metrics/PerformanceUtils)

    [decorateWithMetrics] keeps the aliases it has decorated in the module's
    set [decoratedAliases].  The wrapped function only records performance
    marks and returns the promise of the original function; of a call of
    [decorateWithMetrics] the model keeps the effect on the set and whether
    it throws. *)
Module PerformanceUtils.

Definition quote : string := String (Ascii.ascii_of_nat 34) EmptyString.

Definition already_decorated (alias : string) : exn :=
  Error (quote +:+ alias +:+ quote +:+ " is already decorated").

Definition decorateWithMetrics (alias : string) (decoratedAliases : JSSet.t)
    : comp JSSet.t :=
  if JSSet.has alias decoratedAliases then Throw (already_decorated alias)
  else Ret (JSSet.add alias decoratedAliases).

(** Decorate one function per alias, in order, starting with no alias
    decorated. *)
Definition decorateAll (aliases : list string) : comp JSSet.t :=
  forEachM (λ decoratedAliases alias, decorateWithMetrics alias decoratedAliases)
    JSSet.empty aliases.

End PerformanceUtils.

(** * Proofs *)

Example fastMerge_ex1 :
  fastMerge (VObj {[ "a" := VArr [num 1; num 2; num 3] ]}) (VObj {[ "a" := VArr [num 4] ]})
  = Ret (VObj {[ "a" := VArr [num 4] ]}).
Proof. vm_compute. reflexivity. Qed.

Section ForEach.
Context {A S : Type}.

Lemma forEachM_ext (body body' : S → A → comp S) acc l :
  (∀ acc x, x ∈ l → body acc x = body' acc x) →
  forEachM body acc l = forEachM body' acc l.
Proof.
  revert acc. induction l as [|x l IH]; intros acc Hext; [done|].
  simpl. rewrite Hext by left.
  destruct (body' acc x); simpl; try done.
  apply IH. intros. apply Hext. by right.
Qed.

Lemma forEachM_pure (f : S → A → S) acc l :
  forEachM (λ acc x, Ret (f acc x)) acc l = Ret (foldl f acc l).
Proof. revert acc. induction l as [|x l IH]; intros acc; simpl; [done|apply IH]. Qed.
End ForEach.

Lemma lookup_foldl_insert {V} (g : string → V) (d0 : gmap string V) l i :
  foldl (λ d k, <[k := g k]> d) d0 l !! i
  = if decide (i ∈ l) then Some (g i) else d0 !! i.
Proof.
  revert d0. induction l as [|k l IH]; intros d0.
  - destruct (decide (i ∈ [])) as [Hin|_]; [by apply elem_of_nil in Hin|done].
  - cbn [foldl]. rewrite IH.
    destruct (decide (i ∈ l)) as [Hin|Hin].
    + rewrite decide_True by (by right). done.
    + destruct (decide (i = k)) as [->|Hne].
      * rewrite lookup_insert_eq, decide_True by left. done.
      * rewrite lookup_insert_ne by done.
        rewrite decide_False; [done|]. rewrite elem_of_cons. by intros [?|?].
Qed.

Lemma elem_of_keys {V} (m : gmap string V) i :
  i ∈ map fst (map_to_list m) ↔ is_Some (m !! i).
Proof.
  rewrite list_elem_of_fmap. split.
  - intros [[k v] [-> Hin]]. apply elem_of_map_to_list in Hin. by exists v.
  - intros [v Hv]. exists (i, v). split; [done|]. by apply elem_of_map_to_list.
Qed.

(** A loop over the keys of [S] that assigns [g key] to each of them. *)
Lemma foldl_insert_keys {V W} (g : string → V) (d0 : gmap string V) (S : gmap string W) :
  foldl (λ d k, <[k := g k]> d) d0 (map fst (map_to_list S))
  = map_imap (λ k _, Some (g k)) S ∪ d0.
Proof.
  apply map_eq. intros i. rewrite lookup_foldl_insert, lookup_union, map_lookup_imap.
  case_decide as Hin; rewrite elem_of_keys in Hin.
  - destruct Hin as [w ->]. simpl. by destruct (d0 !! i).
  - apply eq_None_not_Some in Hin. rewrite Hin. simpl. by destruct (d0 !! i).
Qed.

Lemma vsize_pos v : 1 ≤ vsize v.
Proof. destruct v; simpl; lia. Qed.

Lemma vsize_lookup (m : gmap string value) k v :
  m !! k = Some v → vsize v < vsize (VObj m).
Proof.
  intros Hk. simpl.
  rewrite (map_fold_delete_L _ _ k v m); [lia| |done].
  intros. lia.
Qed.

Lemma map_imap_ext_lookup {V W} (f g : string → V → option W) (m : gmap string V) :
  (∀ k v, m !! k = Some v → f k v = g k v) → map_imap f m = map_imap g m.
Proof.
  intros Hfg. apply map_imap_ext. intros k.
  destruct (m !! k) as [v|] eqn:Hk; simpl; [|done]. f_equal. by apply Hfg.
Qed.

Lemma getProp_lookup v (m : gmap string value) k x :
  ownProps v = Some m → m !! k = Some x → getProp v k = x.
Proof. intros Hv Hk. unfold getProp. by rewrite Hv, Hk. Qed.

Lemma vsize_emptyTarget v : vsize (Deepmerge.emptyTarget v) = 1.
Proof. by destruct v. Qed.

Lemma merged_emptyTarget v :
  isMergeableObject v = true → merged (Deepmerge.emptyTarget v) v = v.
Proof.
  intros Hm. destruct v; cbn in Hm; try discriminate; [done|].
  cbn. f_equal. rewrite right_id_L by apply _.
  rewrite <- (map_imap_Some props) at 2.
  apply map_imap_ext_lookup. intros k sv _. by rewrite lookup_empty.
Qed.

Lemma measure_matching t s :
  isArray s = isArray t → measure t s = vsize t + vsize s.
Proof. intros Heq. unfold measure. rewrite Heq, eqb_reflx. lia. Qed.

Lemma measure_le t s : measure t s ≤ vsize t + vsize s + 1.
Proof. unfold measure. destruct (Bool.eqb _ _); lia. Qed.

Section FuelSpec.
Variable n : nat.
Let rec := Deepmerge.deepmerge_fuel n fastMergeOptions.
Hypothesis IH : ∀ t s, measure t s ≤ n → rec t s = fastMerge_result t s.

Lemma clone_fuel v :
  1 + vsize v ≤ n →
  Deepmerge.cloneUnlessOtherwiseSpecified fastMergeOptions rec v = Ret v.
Proof using IH.
  intros Hn. unfold Deepmerge.cloneUnlessOtherwiseSpecified. cbn [Deepmerge.isMergeableObject fastMergeOptions].
  destruct (isMergeableObject v) eqn:Hm; [|done].
  rewrite IH.
  - unfold fastMerge_result.
    replace (isNullish v) with false by (by destruct v).
    rewrite andb_false_r. by rewrite merged_emptyTarget.
  - rewrite measure_matching, vsize_emptyTarget by (by destruct v). lia.
Qed.

(** The first loop of [mergeObject] copies the target's properties. *)
Lemma copy_target_fuel A :
  vsize (VObj A) ≤ n →
  forEachM (λ destination key,
      v ← Deepmerge.cloneUnlessOtherwiseSpecified fastMergeOptions rec (getProp (VObj A) key);
      Ret (<[key := v]> destination))
    (∅ : gmap string value) (map fst (map_to_list A))
  = Ret A.
Proof using IH.
  intros Hn.
  rewrite (forEachM_ext _ (λ d k, Ret (<[k := getProp (VObj A) k]> d))).
  - rewrite forEachM_pure, foldl_insert_keys, right_id_L by apply _.
    f_equal. rewrite <- (map_imap_Some A) at 2.
    apply map_imap_ext_lookup. intros k v Hk.
    by rewrite (getProp_lookup _ A k v).
  - intros d k Hk. apply elem_of_keys in Hk as [v Hv].
    rewrite (getProp_lookup _ A k v) by done.
    rewrite clone_fuel; [done|].
    apply vsize_lookup in Hv. lia.
Qed.
End FuelSpec.

Lemma indexed_lookup_elem l k v : indexed l !! k = Some v → v ∈ l.
Proof.
  unfold indexed. intros Hk. apply elem_of_list_to_map_2 in Hk.
  apply elem_of_lookup_imap in Hk as (i & x & Heq & Hx).
  injection Heq as _ ->. by eapply list_elem_of_lookup_2.
Qed.

Lemma chars_not_mergeable s v : v ∈ chars s → isMergeableObject v = false.
Proof.
  induction s as [|c s IH]; simpl; [by intros ?%elem_of_nil|].
  intros [->|Hin]%elem_of_cons; [done|by apply IH].
Qed.

(** A mergeable property value of a non-array source is a property of a
    plain object, hence smaller than the source. *)
Lemma mergeable_prop_smaller s (S : gmap string value) k sv :
  isArray s = false → ownProps s = Some S → S !! k = Some sv →
  isMergeableObject sv = true → vsize sv < vsize s.
Proof.
  intros Harr HS Hk Hm. destruct s; simplify_eq/=.
  - apply indexed_lookup_elem, chars_not_mergeable in Hk. congruence.
  - by apply vsize_lookup in Hk.
Qed.

Lemma propertyIsUnsafe_nonarray t k :
  isArray t = false → Deepmerge.propertyIsUnsafe t k = false.
Proof.
  intros Harr. unfold Deepmerge.propertyIsUnsafe, Deepmerge.propertyIsOnObject, ownEnumerable.
  destruct t; simplify_eq/=; try done.
  by destruct (bool_decide _).
Qed.

Lemma propertyIsOnObject_nonarray t k :
  isArray t = false →
  Deepmerge.propertyIsOnObject t k = bool_decide (is_Some (objProps t !! k)).
Proof.
  intros Harr. unfold Deepmerge.propertyIsOnObject.
  destruct t; simplify_eq/=; try done;
    by rewrite lookup_empty, bool_decide_eq_false_2 by (by intros [??]).
Qed.

Lemma getProp_objProps t k tv : objProps t !! k = Some tv → getProp t k = tv.
Proof.
  destruct t; simpl; try (by rewrite lookup_empty).
  intros Hk. by apply (getProp_lookup _ props).
Qed.

Lemma objProps_smaller t k tv : objProps t !! k = Some tv → vsize tv < vsize t.
Proof.
  destruct t; simpl; try (by rewrite lookup_empty).
  apply vsize_lookup.
Qed.

Section FuelSpecSource.
Variable n : nat.
Let rec := Deepmerge.deepmerge_fuel n fastMergeOptions.
Hypothesis IH : ∀ t s, measure t s ≤ n → rec t s = fastMerge_result t s.

(** The second loop of [mergeObject]. *)
Lemma merge_source_fuel t s (S d0 : gmap string value) :
  isArray t = false → isArray s = false → ownProps s = Some S →
  vsize t + vsize s ≤ n + 1 →
  forEachM (λ destination key,
      if Deepmerge.propertyIsUnsafe t key then Ret destination
      else if Deepmerge.propertyIsOnObject t key
              && Deepmerge.isMergeableObject fastMergeOptions (getProp s key)
      then
        v ← rec (getProp t key) (getProp s key);
        Ret (<[key := v]> destination)
      else
        v ← Deepmerge.cloneUnlessOtherwiseSpecified fastMergeOptions rec (getProp s key);
        Ret (<[key := v]> destination))
    d0 (map fst (map_to_list S))
  = Ret (map_imap (λ k sv, Some (pick t k sv)) S ∪ d0).
Proof using IH.
  intros Ht Hs HS Hn.
  rewrite (forEachM_ext _ (λ d k, Ret (<[k := pick t k (getProp s k)]> d))).
  - rewrite forEachM_pure, foldl_insert_keys. do 2 f_equal.
    apply map_imap_ext_lookup. intros k sv Hk.
    by rewrite (getProp_lookup _ S k sv).
  - intros d k Hk. apply elem_of_keys in Hk as [sv Hsv].
    rewrite (getProp_lookup s S k sv) by done.
    rewrite propertyIsUnsafe_nonarray, propertyIsOnObject_nonarray by done.
    cbn [Deepmerge.isMergeableObject fastMergeOptions]. unfold pick.
    pose proof (vsize_pos t) as Htpos.
    destruct (objProps t !! k) as [tv|] eqn:Htk.
    + rewrite bool_decide_eq_true_2 by eauto. cbn [andb].
      destruct (isMergeableObject sv) eqn:Hm.
      * rewrite (getProp_objProps t k tv) by done.
        pose proof (mergeable_prop_smaller _ _ _ _ Hs HS Hsv Hm).
        pose proof (objProps_smaller _ _ _ Htk).
        pose proof (measure_le tv sv).
        rewrite IH by lia. unfold fastMerge_result.
        replace (isNullish sv) with false by (by destruct sv).
        by rewrite andb_false_r.
      * unfold Deepmerge.cloneUnlessOtherwiseSpecified.
        cbn [Deepmerge.isMergeableObject fastMergeOptions]. by rewrite Hm.
    + rewrite bool_decide_eq_false_2 by (by intros [??]). cbn [andb].
      destruct (isMergeableObject sv) eqn:Hm.
      * pose proof (mergeable_prop_smaller _ _ _ _ Hs HS Hsv Hm).
        rewrite (clone_fuel n) by (done || lia). done.
      * unfold Deepmerge.cloneUnlessOtherwiseSpecified.
        cbn [Deepmerge.isMergeableObject fastMergeOptions]. by rewrite Hm.
Qed.
End FuelSpecSource.

Lemma pick_not_mergeable t (S : gmap string value) :
  (∀ k sv, S !! k = Some sv → isMergeableObject sv = false) →
  map_imap (λ k sv, Some (pick t k sv)) S = S.
Proof.
  intros HS. rewrite <- (map_imap_Some S) at 2.
  apply map_imap_ext_lookup. intros k sv Hk. unfold pick.
  rewrite (HS k sv Hk). by destruct (objProps t !! k).
Qed.

(** With fuel for the sizes of both arguments, the fuelled recursion returns
    the closed form: it neither runs out of fuel nor depends on the fuel. *)
Lemma deepmerge_fuel_spec n t s :
  measure t s ≤ n →
  Deepmerge.deepmerge_fuel n fastMergeOptions t s = fastMerge_result t s.
Proof.
  revert t s. induction n as [|n IH]; intros t s Hn.
  { pose proof (vsize_pos t). unfold measure in Hn. lia. }
  pose proof (vsize_pos t) as Htpos. pose proof (vsize_pos s) as Hspos.
  cbn [Deepmerge.deepmerge_fuel]. unfold Deepmerge.deepmerge_body, fastMerge_result.
  unfold measure in Hn.
  destruct (isArray s) eqn:Hs, (isArray t) eqn:Ht; cbn [Bool.eqb negb andb] in Hn |- *.
  - (* both arrays *) destruct s; simplify_eq/=. done.
  - (* array over a non-array *)
    rewrite clone_fuel by (done || lia). destruct s; simplify_eq/=. done.
  - (* non-array over an array *)
    rewrite clone_fuel by (done || lia).
    destruct s; cbn [merged]; rewrite ?Ht; done.
  - (* mergeObject *)
    unfold Deepmerge.mergeObject.
    assert ((if Deepmerge.isMergeableObject fastMergeOptions t
             then keys ← Deepmerge.getKeys t;
                  forEachM (λ destination key,
                      v ← Deepmerge.cloneUnlessOtherwiseSpecified fastMergeOptions
                            (Deepmerge.deepmerge_fuel n fastMergeOptions) (getProp t key);
                      Ret (<[key := v]> destination))
                    (∅ : gmap string value) keys
             else Ret ∅) = Ret (objProps t)) as ->.
    { destruct t; try done.
      apply (copy_target_fuel n IH). cbn [objProps]. lia. }
    cbn [mbind comp_bind].
    unfold Deepmerge.getKeys, objectKeys.
    destruct (ownProps s) as [S|] eqn:HS.
    + cbn [mbind comp_bind].
      rewrite (merge_source_fuel n IH t s S) by (done || lia).
      cbn [mbind comp_bind].
      replace (isNullish s) with false by (by destruct s).
      f_equal. destruct s; simplify_eq/=; rewrite ?Ht; try done;
        rewrite pick_not_mergeable; try done.
      intros k sv Hk. by apply indexed_lookup_elem, chars_not_mergeable in Hk.
    + by destruct s.
Qed.

Theorem fastMerge_eq t s : fastMerge t s = fastMerge_result t s.
Proof.
  unfold fastMerge, deepmerge. apply deepmerge_fuel_spec.
  pose proof (measure_le t s). lia.
Qed.

(** [deepmerge] never exhausts its fuel, and more fuel changes nothing. *)
Corollary deepmerge_enough_fuel t s n :
  vsize t + vsize s < n →
  Deepmerge.deepmerge_fuel n fastMergeOptions t s = fastMerge t s
  ∧ fastMerge t s ≠ OutOfFuel.
Proof.
  intros Hn. pose proof (measure_le t s).
  rewrite fastMerge_eq, deepmerge_fuel_spec by lia.
  split; [done|]. unfold fastMerge_result. by destruct (_ && _).
Qed.

(** *** Insertion-ordered sets *)

Lemma JSSet_elem_of_add k k' s : k' ∈ JSSet.add k s ↔ k' = k ∨ k' ∈ s.
Proof.
  unfold JSSet.add, JSSet.has. case_bool_decide as Hk.
  - split; [tauto|]. by intros [->|?].
  - rewrite elem_of_app, list_elem_of_singleton. tauto.
Qed.

Lemma JSSet_elem_of_delete k k' s : k' ∈ JSSet.delete k s ↔ k' ≠ k ∧ k' ∈ s.
Proof. unfold JSSet.delete. by rewrite list_elem_of_filter. Qed.

Lemma JSSet_elem_of_foldl_add l s k :
  k ∈ foldl (λ s k, JSSet.add k s) s l ↔ k ∈ s ∨ k ∈ l.
Proof.
  revert s. induction l as [|x l IH]; intros s; simpl.
  - rewrite elem_of_nil. tauto.
  - rewrite IH, JSSet_elem_of_add, elem_of_cons. tauto.
Qed.

Lemma JSSet_elem_of_of_list l k : k ∈ JSSet.of_list l ↔ k ∈ l.
Proof.
  unfold JSSet.of_list. rewrite JSSet_elem_of_foldl_add. unfold JSSet.empty.
  rewrite elem_of_nil. tauto.
Qed.

Lemma JSSet_NoDup_add k s : NoDup s → NoDup (JSSet.add k s).
Proof.
  intros Hs. unfold JSSet.add, JSSet.has. case_bool_decide; [done|].
  apply NoDup_app. split_and!; [done| |apply NoDup_singleton].
  intros x Hx ->%list_elem_of_singleton. done.
Qed.

Lemma JSSet_NoDup_delete k s : NoDup s → NoDup (JSSet.delete k s).
Proof. apply NoDup_filter. Qed.

(** *** Properties of [fastMerge] *)




Lemma merged_object_nonarray base B :
  isArray base = false →
  merged base (VObj B) = VObj (map_imap (λ k sv, Some (pick base k sv)) B ∪ objProps base).
Proof. intros Hb. cbn [merged]. by rewrite Hb. Qed.

Lemma lookup_merged base B k :
  isArray base = false →
  objProps (merged base (VObj B)) !! k
  = match B !! k with
    | Some sv => Some (pick base k sv)
    | None => objProps base !! k
    end.
Proof.
  intros Hb. rewrite merged_object_nonarray by done. cbn [objProps].
  rewrite lookup_union, map_lookup_imap.
  destruct (B !! k) as [sv|]; simpl; [|by rewrite left_id_L by apply _].
  by destruct (objProps base !! k).
Qed.




















(** *** Properties of the cache *)

#[global] Arguments JSSet.add : simpl never.
#[global] Arguments JSSet.delete : simpl never.
#[global] Arguments JSSet.of_list : simpl never.

Section CacheFacts.
Import OnyxCache.


Lemma storageMap_foldl_access keys c :
  storageMap (foldl (λ c key, addToAccessedKeys key c) c keys) = storageMap c.
Proof. revert c. induction keys as [|k keys IH]; intros c; simpl; [done|by rewrite IH]. Qed.

Lemma storageKeys_foldl_access keys c :
  storageKeys (foldl (λ c key, addToAccessedKeys key c) c keys) = storageKeys c.
Proof. revert c. induction keys as [|k keys IH]; intros c; simpl; [done|by rewrite IH]. Qed.

Lemma pendingPromises_foldl_access keys c :
  pendingPromises (foldl (λ c key, addToAccessedKeys key c) c keys) = pendingPromises c.
Proof. revert c. induction keys as [|k keys IH]; intros c; simpl; [done|by rewrite IH]. Qed.

Lemma pendingPromises_foldl_drop keys c :
  pendingPromises (foldl (λ c key, drop key c) c keys) = pendingPromises c.
Proof. revert c. induction keys as [|k keys IH]; intros c; simpl; [done|by rewrite IH]. Qed.

Lemma merge_accepts_cases data :
  merge_rejects data = false →
  (∃ B, data = VObj B) ∨ ownProps data = Some ∅.
Proof. destruct data; cbn; try discriminate; eauto. Qed.

(** What [merge] does when its guard passes. *)
Lemma merge_accepted data c :
  merge_rejects data = false →
  merge data c
  = (Ret (),
     foldl (λ c key, addToAccessedKeys key c)
       (with_storageKeys (JSSet.of_list (getAllKeys c ++ _keys data))
          (with_storageMap (objectAssignEmpty (merged (VObj (storageMap c)) data)) c))
       (_keys data)).
Proof.
  intros Hg. unfold merge. fold (merge_rejects data). rewrite Hg.
  rewrite fastMerge_eq. unfold fastMerge_result. cbn [isArray negb andb].
  replace (isNullish data) with false by (by destruct data). done.
Qed.

Lemma storageMap_merge data c :
  merge_rejects data = false →
  storageMap (merge data c).2 = objectAssignEmpty (merged (VObj (storageMap c)) data).
Proof. intros Hg. rewrite merge_accepted by done. cbn [snd]. by rewrite storageMap_foldl_access. Qed.

Lemma storageKeys_merge data c :
  merge_rejects data = false →
  storageKeys (merge data c).2 = JSSet.of_list (getAllKeys c ++ _keys data).
Proof. intros Hg. rewrite merge_accepted by done. cbn [snd]. by rewrite storageKeys_foldl_access. Qed.
End CacheFacts.




Section KnownKeys.
Import OnyxCache.

Lemma known_keys_new : known_keys_inv new.
Proof. intros k [v Hv]. cbn in Hv. by rewrite lookup_empty in Hv. Qed.

Lemma known_keys_set key val c : known_keys_inv c → known_keys_inv (set key val c).2.
Proof.
  intros Hinv k. cbn. rewrite JSSet_elem_of_add.
  destruct (decide (k = key)) as [->|Hne]; [by left|].
  rewrite lookup_insert_ne by done. right. by apply Hinv.
Qed.

Lemma known_keys_drop key c : known_keys_inv c → known_keys_inv (drop key c).
Proof.
  intros Hinv k. cbn. rewrite JSSet_elem_of_delete.
  destruct (decide (k = key)) as [->|Hne].
  - rewrite lookup_delete_eq. by intros [??].
  - rewrite lookup_delete_ne by done. split; [done|]. by apply Hinv.
Qed.

Lemma known_keys_foldl_drop keys c :
  known_keys_inv c → known_keys_inv (foldl (λ c key, drop key c) c keys).
Proof.
  revert c. induction keys as [|k keys IH]; intros c Hinv; simpl; [done|].
  by apply IH, known_keys_drop.
Qed.

Lemma known_keys_getValue key c : known_keys_inv c → known_keys_inv (getValue key c).2.
Proof. done. Qed.

Lemma known_keys_removeLeastRecentlyUsedKeys c :
  known_keys_inv c → known_keys_inv (removeLeastRecentlyUsedKeys c).
Proof.
  intros Hinv. unfold removeLeastRecentlyUsedKeys.
  destruct (_ <=? _)%Z; [done|]. by apply known_keys_foldl_drop.
Qed.

Lemma known_keys_merge data c : known_keys_inv c → known_keys_inv (merge data c).2.
Proof.
  intros Hinv. destruct (merge_rejects data) eqn:Hg.
  { unfold merge. fold (merge_rejects data). by rewrite Hg. }
  intros k. rewrite storageMap_merge, storageKeys_merge by done.
  rewrite JSSet_elem_of_of_list, elem_of_app. unfold getAllKeys, JSSet.to_list.
  destruct (merge_accepts_cases data Hg) as [[B ->]|Hprops].
  - change (objectAssignEmpty ?v) with (objProps v).
    rewrite lookup_merged by done.
    destruct (B !! k) as [sv|] eqn:Hk.
    + intros _. right. unfold _keys. cbn. apply elem_of_keys. eauto.
    + intros Hs. left. by apply Hinv.
  - assert (merged (VObj (storageMap c)) data = VObj (storageMap c)) as ->.
    { destruct data; simplify_eq/=; rewrite ?map_imap_empty;
        by rewrite left_id_L by apply _. }
    intros Hs. left. by apply Hinv.
Qed.
End KnownKeys.

(** C7 (known keys).  Every operation of the cache, and every step of the
    promises it has captured, keeps each key that holds an entry in the
    value map among the known storage keys. *)
Theorem known_keys_preserved (rt : Runtime.t) (e : Runtime.event) :
  known_keys_inv (Runtime.cache rt) →
  known_keys_inv (Runtime.cache (Runtime.step rt e)).
Proof.
  intros Hinv. destruct e; cbn [Runtime.step Runtime.with_cache Runtime.cache].
  - by apply known_keys_set.
  - by apply known_keys_merge.
  - by apply known_keys_drop.
  - by apply known_keys_getValue.
  - by apply known_keys_removeLeastRecentlyUsedKeys.
  - done.
  - unfold Runtime.captureTask, Runtime.finally.
    by destruct (Runtime.settled rt p).
  - unfold Runtime.settle. by destruct (Runtime.settled rt (Ext id)).
  - unfold Runtime.tick. destruct (Runtime.jobs rt) as [|[[taskName q] o] rest]; [done|].
    unfold Runtime.settle. cbn. by destruct (Runtime.settled rt q).
Qed.

Lemma known_keys_preserved_witness :
  known_keys_inv (Runtime.cache Runtime.init)
  ∧ known_keys_inv
      (Runtime.cache
         (Runtime.step Runtime.init (Runtime.EMerge (VObj {[ "session" := VNull ]})))).
Proof.
  assert (known_keys_inv (Runtime.cache Runtime.init)) as Hinit
    by (intros k [v Hv]; vm_compute in Hv; discriminate).
  split; [exact Hinit|].
  apply known_keys_preserved. exact Hinit.
Defined.

Section Eviction.
Import OnyxCache.

Lemma lookup_storageMap_foldl_drop keys c k :
  storageMap (foldl (λ c key, drop key c) c keys) !! k
  = if decide (k ∈ keys) then None else storageMap c !! k.
Proof.
  revert c. induction keys as [|x keys IH]; intros c.
  - rewrite decide_False by apply not_elem_of_nil. done.
  - cbn [foldl]. rewrite IH. cbn [drop storageMap with_storageMap with_storageKeys with_recentKeys].
    destruct (decide (k ∈ keys)) as [Hin|Hin].
    + rewrite decide_True by (by right). done.
    + destruct (decide (k = x)) as [->|Hne].
      * rewrite lookup_delete_eq, decide_True by left. done.
      * rewrite lookup_delete_ne by done.
        rewrite decide_False; [done|]. rewrite elem_of_cons. by intros [?|?].
Qed.

(** The keys kept by the negative slice, when the limit is positive and
    exceeded: the last [limit] ones. *)
Lemma slice_negative (l : list string) (limit : Z) :
  (1 ≤ limit < Z.of_nat (length l))%Z →
  slice (- limit) l = skipn (length l - Z.to_nat limit) l.
Proof.
  intros Hl. unfold slice.
  destruct (Z.ltb_spec (- limit) 0); [|lia].
  f_equal. lia.
Qed.

Lemma last_elem_of_drop (l : list string) n x :
  last l = Some x → n < length l → x ∈ skipn n l.
Proof.
  intros Hlast Hn. rewrite last_lookup in Hlast.
  apply (list_elem_of_lookup_2 _ (pred (length l) - n)).
  rewrite lookup_drop. rewrite <- Hlast. f_equal. lia.
Qed.

Lemma head_not_elem_of_drop (l : list string) n x :
  NoDup l → head l = Some x → 1 ≤ n → x ∉ skipn n l.
Proof.
  intros Hnd Hhead Hn. destruct l as [|y l]; [done|]. injection Hhead as ->.
  destruct n as [|n]; [lia|]. cbn [skipn].
  apply NoDup_cons in Hnd as [Hx _]. intros Hin. apply Hx.
  by apply (subseteq_drop n l).
Qed.

(** What is left of an entry after the eviction, when the limit is exceeded. *)
Lemma lookup_removeLeastRecentlyUsedKeys c k :
  (maxRecentKeysSize c < Z.of_nat (JSSet.size (recentKeys c)))%Z →
  storageMap (removeLeastRecentlyUsedKeys c) !! k
  = if decide (k ∈ slice (- maxRecentKeysSize c) (recentKeys c))
    then storageMap c !! k else None.
Proof.
  intros Hlt. unfold removeLeastRecentlyUsedKeys.
  destruct (Z.leb_spec (Z.of_nat (JSSet.size (recentKeys c))) (maxRecentKeysSize c)); [lia|].
  rewrite lookup_storageMap_foldl_drop. unfold _difference, JSSet.to_list, _keys.
  cbn [_isObject ownProps].
  destruct (decide (k ∈ slice _ _)) as [Hin|Hin].
  - rewrite decide_False; [done|]. rewrite list_elem_of_filter. tauto.
  - destruct (storageMap c !! k) as [v|] eqn:Hk.
    + rewrite decide_True; [done|]. rewrite list_elem_of_filter. split; [done|].
      apply elem_of_keys. eauto.
    + by destruct (decide _).
Qed.
End Eviction.

(** C6 (eviction), as the code has it.  With a limit of at least one that
    the recently used keys exceed, [removeLeastRecentlyUsedKeys] removes the
    entry of the least recently touched key (the first of [recentKeys]) and
    leaves the entry of the key touched last (the last of [recentKeys]) as
    it was; and when the recently used keys do not exceed the limit, the
    cache is left as it was.  [recentKeys] is a [Set], so it holds no key
    twice ([NoDup_recentKeys_exec]). *)
Theorem removeLeastRecentlyUsedKeys_keeps_recent :
  (∀ (c : OnyxCache.t) (K lru : string),
     NoDup (OnyxCache.recentKeys c) →
     last (OnyxCache.recentKeys c) = Some K →
     head (OnyxCache.recentKeys c) = Some lru →
     (1 ≤ OnyxCache.maxRecentKeysSize c)%Z →
     (OnyxCache.maxRecentKeysSize c < Z.of_nat (JSSet.size (OnyxCache.recentKeys c)))%Z →
     let c' := OnyxCache.removeLeastRecentlyUsedKeys c in
     OnyxCache.storageMap c' !! lru = None
     ∧ OnyxCache.storageMap c' !! K = OnyxCache.storageMap c !! K)
  ∧ (∀ c : OnyxCache.t,
       (Z.of_nat (JSSet.size (OnyxCache.recentKeys c)) ≤ OnyxCache.maxRecentKeysSize c)%Z →
       OnyxCache.removeLeastRecentlyUsedKeys c = c).
Proof.
  split.
  - intros c K lru Hnd Hlast Hhead Hone Hlt. cbn zeta.
    rewrite !lookup_removeLeastRecentlyUsedKeys by done.
    unfold JSSet.size in Hlt. rewrite slice_negative by lia.
    split.
    + rewrite decide_False; [done|].
      apply head_not_elem_of_drop; [done..|lia].
    + rewrite decide_True; [done|].
      apply last_elem_of_drop; [done|lia].
  - intros c Hle. unfold OnyxCache.removeLeastRecentlyUsedKeys.
    by destruct (Z.leb_spec (Z.of_nat (JSSet.size (OnyxCache.recentKeys c)))
                   (OnyxCache.maxRecentKeysSize c)); [|lia].
Qed.

Lemma removeLeastRecentlyUsedKeys_keeps_recent_witness :
  let c := OnyxCache.setRecentKeysLimit 1 cache_ab in
  NoDup (OnyxCache.recentKeys c)
  ∧ last (OnyxCache.recentKeys c) = Some "b"
  ∧ head (OnyxCache.recentKeys c) = Some "a"
  ∧ (1 ≤ OnyxCache.maxRecentKeysSize c)%Z
  ∧ (OnyxCache.maxRecentKeysSize c < Z.of_nat (JSSet.size (OnyxCache.recentKeys c)))%Z
  ∧ OnyxCache.storageMap (OnyxCache.removeLeastRecentlyUsedKeys c) !! "a" = None
  ∧ OnyxCache.storageMap (OnyxCache.removeLeastRecentlyUsedKeys c) !! "b"
    = OnyxCache.storageMap c !! "b"
  ∧ (Z.of_nat (JSSet.size (OnyxCache.recentKeys OnyxCache.new))
     ≤ OnyxCache.maxRecentKeysSize OnyxCache.new)%Z
  ∧ OnyxCache.removeLeastRecentlyUsedKeys OnyxCache.new = OnyxCache.new.
Proof.
  cbn zeta.
  assert (NoDup (OnyxCache.recentKeys (OnyxCache.setRecentKeysLimit 1 cache_ab))) as Hnd
    by (vm_compute; apply NoDup_cons; split;
        [by intros ?%list_elem_of_singleton | apply NoDup_singleton]).
  assert (Z.of_nat (JSSet.size (OnyxCache.recentKeys OnyxCache.new))
          ≤ OnyxCache.maxRecentKeysSize OnyxCache.new)%Z as Hle by (vm_compute; discriminate).
  pose proof (proj1 removeLeastRecentlyUsedKeys_keeps_recent
                (OnyxCache.setRecentKeysLimit 1 cache_ab) "b" "a" Hnd
                eq_refl eq_refl ltac:(vm_compute; discriminate) ltac:(vm_compute; reflexivity))
    as [Hlru HK].
  pose proof (proj2 removeLeastRecentlyUsedKeys_keeps_recent OnyxCache.new Hle) as Hsame.
  split_and!;
    [exact Hnd | reflexivity | reflexivity | vm_compute; discriminate
    | vm_compute; reflexivity | exact Hlru | exact HK | exact Hle | exact Hsame].
Defined.

(** C6 as stated fails under the default limit 0: [slice(-0)] keeps every
    recently used key, so nothing is removed, not even the least recently
    touched key. *)
Lemma removeLeastRecentlyUsedKeys_limit_0_counterexample :
  NoDup (OnyxCache.recentKeys cache_ab)
  ∧ last (OnyxCache.recentKeys cache_ab) = Some "b"
  ∧ head (OnyxCache.recentKeys cache_ab) = Some "a"
  ∧ (OnyxCache.maxRecentKeysSize cache_ab
     < Z.of_nat (JSSet.size (OnyxCache.recentKeys cache_ab)))%Z
  ∧ OnyxCache.storageMap (OnyxCache.removeLeastRecentlyUsedKeys cache_ab) !! "a"
    = Some (num 1)
  ∧ ¬ (OnyxCache.storageMap (OnyxCache.removeLeastRecentlyUsedKeys cache_ab) !! "a" = None
       ∧ OnyxCache.storageMap (OnyxCache.removeLeastRecentlyUsedKeys cache_ab) !! "b"
         = OnyxCache.storageMap cache_ab !! "b").
Proof.
  assert (OnyxCache.storageMap (OnyxCache.removeLeastRecentlyUsedKeys cache_ab) !! "a"
          = Some (num 1)) as Ha by (vm_compute; reflexivity).
  split_and!.
  - vm_compute. apply NoDup_cons. split;
      [by intros ?%list_elem_of_singleton | apply NoDup_singleton].
  - reflexivity.
  - reflexivity.
  - vm_compute. reflexivity.
  - exact Ha.
  - intros [Hnone _]. rewrite Ha in Hnone. discriminate.
Qed.

Section RecentKeys.
Import OnyxCache.

(** Touching a key puts it last among the recently used keys. *)
Lemma last_addToAccessedKeys key c :
  last (recentKeys (addToAccessedKeys key c)) = Some key.
Proof.
  cbn [addToAccessedKeys recentKeys with_recentKeys]. unfold JSSet.add, JSSet.has.
  rewrite bool_decide_eq_false_2.
  - by rewrite last_snoc.
  - rewrite JSSet_elem_of_delete. tauto.
Qed.


Lemma last_recentKeys_set key val c : last (recentKeys (set key val c).2) = Some key.
Proof. apply (last_addToAccessedKeys key (addKey key c)). Qed.

Lemma NoDup_addToAccessedKeys key c :
  NoDup (recentKeys c) → NoDup (recentKeys (addToAccessedKeys key c)).
Proof. intros Hnd. by apply JSSet_NoDup_add, JSSet_NoDup_delete. Qed.

Lemma NoDup_foldl_access keys c :
  NoDup (recentKeys c) →
  NoDup (recentKeys (foldl (λ c key, addToAccessedKeys key c) c keys)).
Proof.
  revert c. induction keys as [|k keys IH]; intros c Hnd; simpl; [done|].
  by apply IH, NoDup_addToAccessedKeys.
Qed.

Lemma NoDup_foldl_drop keys c :
  NoDup (recentKeys c) → NoDup (recentKeys (foldl (λ c key, drop key c) c keys)).
Proof.
  revert c. induction keys as [|k keys IH]; intros c Hnd; simpl; [done|].
  apply IH. by apply JSSet_NoDup_delete.
Qed.

Lemma NoDup_recentKeys_merge data c :
  NoDup (recentKeys c) → NoDup (recentKeys (merge data c).2).
Proof.
  intros Hnd. destruct (merge_rejects data) eqn:Hg.
  { unfold merge. fold (merge_rejects data). by rewrite Hg. }
  rewrite merge_accepted by done. by apply NoDup_foldl_access.
Qed.

Lemma NoDup_recentKeys_removeLeastRecentlyUsedKeys c :
  NoDup (recentKeys c) → NoDup (recentKeys (removeLeastRecentlyUsedKeys c)).
Proof.
  intros Hnd. unfold removeLeastRecentlyUsedKeys.
  destruct (_ <=? _)%Z; [done|]. by apply NoDup_foldl_drop.
Qed.
End RecentKeys.

(** The recently used keys of a cache reached from the initial one hold no
    key twice. *)
Lemma NoDup_recentKeys_step rt e :
  NoDup (OnyxCache.recentKeys (Runtime.cache rt)) →
  NoDup (OnyxCache.recentKeys (Runtime.cache (Runtime.step rt e))).
Proof.
  intros Hnd. destruct e; cbn [Runtime.step Runtime.with_cache Runtime.cache].
  - by apply (NoDup_addToAccessedKeys key (OnyxCache.addKey key (Runtime.cache rt))).
  - by apply NoDup_recentKeys_merge.
  - by apply JSSet_NoDup_delete.
  - by apply NoDup_addToAccessedKeys.
  - by apply NoDup_recentKeys_removeLeastRecentlyUsedKeys.
  - done.
  - unfold Runtime.captureTask, Runtime.finally.
    by destruct (Runtime.settled rt p).
  - unfold Runtime.settle. by destruct (Runtime.settled rt (Ext id)).
  - unfold Runtime.tick. destruct (Runtime.jobs rt) as [|[[taskName q] o] rest]; [done|].
    unfold Runtime.settle. cbn. by destruct (Runtime.settled rt q).
Qed.

Lemma NoDup_recentKeys_exec es :
  NoDup (OnyxCache.recentKeys (Runtime.cache (Runtime.exec Runtime.init es))).
Proof.
  unfold Runtime.exec. induction es as [|e es IH] using rev_ind.
  - apply NoDup_nil_2.
  - rewrite foldl_app. cbn [foldl]. by apply NoDup_recentKeys_step.
Qed.

(** *** Captured tasks *)

Section Tasks.
Import Runtime.

Lemma pendingPromises_merge data c :
  OnyxCache.pendingPromises (OnyxCache.merge data c).2 = OnyxCache.pendingPromises c.
Proof.
  destruct (merge_rejects data) eqn:Hg.
  { unfold OnyxCache.merge. fold (merge_rejects data). by rewrite Hg. }
  rewrite merge_accepted by done. cbn [snd]. by rewrite pendingPromises_foldl_access.
Qed.

Lemma pendingPromises_removeLeastRecentlyUsedKeys c :
  OnyxCache.pendingPromises (OnyxCache.removeLeastRecentlyUsedKeys c)
  = OnyxCache.pendingPromises c.
Proof.
  unfold OnyxCache.removeLeastRecentlyUsedKeys.
  destruct (_ <=? _)%Z; [done|]. by rewrite pendingPromises_foldl_drop.
Qed.










End Tasks.

Section Microtasks.
Import Runtime.












End Microtasks.



(** A second [captureTask] for a name replaces the record of the first, and
    the cleanup of the first then removes the record of the second, whose
    promise is still pending. *)
Example captureTask_twice :
  let rt := Runtime.exec Runtime.init
              [Runtime.ECaptureTask "get:session" (Ext 0);
               Runtime.ECaptureTask "get:session" (Ext 1)] in
  let rt' := Runtime.exec rt [Runtime.ESettle 0 Fulfilled; Runtime.ETick] in
  OnyxCache.getTaskPromise "get:session" (Runtime.cache rt) = Some (Wrapper 1)
  ∧ Runtime.settled rt' (Ext 1) = None
  ∧ OnyxCache.hasPendingTask "get:session" (Runtime.cache rt') = false.
Proof. cbn zeta. split_and!; reflexivity. Qed.

(** *** The write sequencer *)

Section Sequencer.
Context {T : Type}.
Import SyncQueue.
Implicit Types (s : SyncQueue.t T) (e : SyncQueue.event T) (es : list (SyncQueue.event T)).

Lemma wf_new : wf (new (T:=T)).
Proof.
  split; cbn; try (intros *; by intros ?%elem_of_nil). apply NoDup_nil_2.
Qed.

Lemma wf_process s : wf s → wf (process s).
Proof.
  intros [Hids Hnd Hst Hrun Hset]. unfold process.
  destruct (isProcessing s); [by split|].
  destruct (queue s) as [|nextTask rest] eqn:Hq; [by split|].
  unfold ids in *. rewrite Hq in *. cbn [map] in *.
  apply NoDup_cons in Hnd as [Hhd Hnd].
  split; unfold ids; cbn [queue pushed trace running map].
  - intros i Hi. apply Hids. by right.
  - done.
  - intros i [Hi|Hi%list_elem_of_singleton]%elem_of_app.
    + destruct (Hst i Hi) as [Hlt Hnin]. split; [done|].
      intros Hin. apply Hnin. by right.
    + injection Hi as ->. split; [apply Hids; by left|done].
  - intros i [Hi|Hi%list_elem_of_singleton]%elem_of_app; apply elem_of_app.
    + left. by apply Hrun.
    + right. subst i. by apply list_elem_of_singleton.
  - intros i o Hi%elem_of_app. apply elem_of_app.
    destruct Hi as [Hi|Hi%list_elem_of_singleton]; [|done].
    left. by eapply Hset.
Qed.

Lemma wf_push d s : wf s → wf (push d s).2.
Proof.
  intros [Hids Hnd Hst Hrun Hset]. cbn [push snd]. apply wf_process.
  split; unfold ids; cbn [queue pushed trace running].
  - intros i. rewrite map_app, elem_of_app. cbn [map id].
    intros [Hi|Hi%list_elem_of_singleton]; [|lia].
    apply Hids in Hi. lia.
  - rewrite map_app. apply NoDup_app. split_and!; [done| |apply NoDup_singleton].
    cbn [map id]. intros i Hi ->%list_elem_of_singleton. apply Hids in Hi. lia.
  - intros i Hi. destruct (Hst i Hi) as [Hlt Hnin]. split; [lia|].
    rewrite map_app, elem_of_app. cbn [map id].
    intros [?|Heq%list_elem_of_singleton]; [done|lia].
  - done.
  - done.
Qed.

Lemma wf_abort s : wf s → wf (abort s).
Proof.
  intros [Hids Hnd Hst Hrun Hset].
  split; unfold ids; cbn [abort queue pushed trace running map]; try done.
  - intros i Hi. by apply elem_of_nil in Hi.
  - apply NoDup_nil_2.
  - intros i Hi. split; [by apply Hst|apply not_elem_of_nil].
Qed.

Lemma wf_workerSettles i o s : wf s → wf (workerSettles i o s).
Proof.
  intros [Hids Hnd Hst Hrun Hset]. unfold workerSettles.
  case_bool_decide as Hi; [|by split].
  split; unfold ids; cbn [queue pushed trace running]; try done.
  - intros j Hj. apply elem_of_app in Hj as [Hj|Hj]; [by apply Hst|].
    apply elem_of_cons in Hj as [?|Hj]; [done|].
    by apply list_elem_of_singleton in Hj.
  - intros j Hj. apply list_elem_of_filter in Hj as [_ Hj].
    apply elem_of_app. left. by apply Hrun.
  - intros j o' Hj. apply elem_of_app. left.
    apply elem_of_app in Hj as [Hj|Hj]; [by eapply Hset|].
    apply elem_of_cons in Hj as [?|Hj]; [done|].
    apply list_elem_of_singleton in Hj. injection Hj as -> ->. by apply Hrun.
Qed.

Lemma wf_finallyCallback i s : wf s → wf (finallyCallback i s).
Proof.
  intros Hwf. unfold finallyCallback. case_bool_decide; [|done].
  apply wf_process. destruct Hwf. by split.
Qed.

Lemma wf_step s e : wf s → wf (step s e).
Proof.
  destruct e; cbn [step];
    auto using wf_push, wf_abort, wf_process, wf_workerSettles, wf_finallyCallback.
Qed.

Lemma wf_exec es : ∀ s, wf s → wf (exec s es).
Proof.
  unfold exec. induction es as [|e es IH]; intros s Hwf; simpl; [done|].
  by apply IH, wf_step.
Qed.
End Sequencer.

Section Abort.
Context {T : Type}.
Import SyncQueue.
Implicit Types (s : SyncQueue.t T) (e : SyncQueue.event T) (es : list (SyncQueue.event T)).

Lemma discarded_process i s : discarded i s → discarded i (process s).
Proof.
  intros (Hlt & Hq & Hst). unfold process.
  destruct (isProcessing s); [done|].
  destruct (queue s) as [|nextTask rest] eqn:Hqs; [done|].
  unfold discarded, ids in *. rewrite Hqs in Hq. cbn [queue pushed trace map] in *.
  split_and!; [done| |].
  - intros Hin. apply Hq. by right.
  - intros [Hin|Hin%list_elem_of_singleton]%elem_of_app; [done|].
    injection Hin as ->. apply Hq. by left.
Qed.

Lemma discarded_push i d s : discarded i s → discarded i (push d s).2.
Proof.
  intros (Hlt & Hq & Hst). cbn [push snd]. apply discarded_process.
  unfold discarded, ids in *. cbn [queue pushed trace].
  split_and!; [lia| |done].
  rewrite map_app, elem_of_app. cbn [map id].
  intros [?|Heq%list_elem_of_singleton]; [done|lia].
Qed.

Lemma discarded_workerSettles i j o s : discarded i s → discarded i (workerSettles j o s).
Proof.
  intros (Hlt & Hq & Hst). unfold workerSettles. case_bool_decide; [|done].
  split_and!; [done..|]. cbn [trace].
  intros [Hin|Hin]%elem_of_app; [done|].
  apply elem_of_cons in Hin as [?|Hin]; [done|].
  by apply list_elem_of_singleton in Hin.
Qed.

Lemma discarded_finallyCallback i j s : discarded i s → discarded i (finallyCallback j s).
Proof.
  intros Hd. unfold finallyCallback. case_bool_decide; [|done].
  by apply discarded_process.
Qed.

Lemma discarded_step i s e : discarded i s → discarded i (step s e).
Proof.
  destruct e; cbn [step];
    auto using discarded_push, discarded_process, discarded_workerSettles,
      discarded_finallyCallback.
  intros (Hlt & Hq & Hst). split_and!; [done| |done]. apply not_elem_of_nil.
Qed.

Lemma discarded_exec i es : ∀ s, discarded i s → discarded i (exec s es).
Proof.
  unfold exec. induction es as [|e es IH]; intros s Hd; simpl; [done|].
  by apply IH, discarded_step.
Qed.

(** What [abort] does to the entries that are queued. *)
Lemma discarded_abort i s : wf s → i ∈ ids s → discarded i (abort s).
Proof.
  intros Hwf Hi. split_and!.
  - by apply (wf_ids s Hwf).
  - apply not_elem_of_nil.
  - intros Hst. by destruct (wf_started s Hwf i Hst).
Qed.
End Abort.

(** C8 (abort).  After [abort], the queue is empty and the flag is cleared;
    and for every entry that was queued at that moment, whatever happens
    afterwards, its worker is never started and the promise that [push]
    returned for it is never settled. *)
Theorem abort_discards_queued {T : Type} (es : list (SyncQueue.event T)) (i : nat) :
  let s := SyncQueue.exec SyncQueue.new es in
  i ∈ SyncQueue.ids s →
  SyncQueue.queue (SyncQueue.abort s) = []
  ∧ SyncQueue.isProcessing (SyncQueue.abort s) = false
  ∧ ∀ es' : list (SyncQueue.event T),
      let s' := SyncQueue.exec (SyncQueue.abort s) es' in
      (SyncQueue.Started i ∉ SyncQueue.trace s')
      ∧ ∀ o, SyncQueue.Settled i o ∉ SyncQueue.trace s'.
Proof.
  intros s Hi. split_and!; [done..|]. intros es' s'.
  assert (wf s) as Hwf by apply wf_exec, wf_new.
  assert (wf s') as Hwf' by by apply wf_exec, wf_abort.
  assert (discarded i s') as (_ & _ & Hst) by by apply discarded_exec, discarded_abort.
  split; [done|]. intros o Hset. apply Hst. by eapply wf_settled.
Qed.

(** After [abort], a worker may start while an earlier one is still running. *)
Example abort_then_push :
  SyncQueue.trace
    (SyncQueue.exec SyncQueue.new
       [SyncQueue.EPush "a"; SyncQueue.EAbort; SyncQueue.EPush "b"])
  = [SyncQueue.Started 0; SyncQueue.Started 1].
Proof. reflexivity. Qed.

Lemma abort_discards_queued_witness :
  let es := [SyncQueue.EPush "a"; SyncQueue.EPush "b"; SyncQueue.EPush "c"] in
  let s := SyncQueue.exec SyncQueue.new es in
  2 ∈ SyncQueue.ids s
  ∧ SyncQueue.queue (SyncQueue.abort s) = []
  ∧ SyncQueue.isProcessing (SyncQueue.abort s) = false
  ∧ ∀ es' : list (SyncQueue.event string),
      let s' := SyncQueue.exec (SyncQueue.abort s) es' in
      (SyncQueue.Started 2 ∉ SyncQueue.trace s')
      ∧ ∀ o, SyncQueue.Settled 2 o ∉ SyncQueue.trace s'.
Proof.
  cbn zeta.
  assert (2 ∈ SyncQueue.ids (SyncQueue.exec SyncQueue.new
            [SyncQueue.EPush "a"; SyncQueue.EPush "b"; SyncQueue.EPush "c"])) as Hin
    by (vm_compute; right; left).
  split; [exact Hin|].
  exact (abort_discards_queued
           [SyncQueue.EPush "a"; SyncQueue.EPush "b"; SyncQueue.EPush "c"] 2 Hin).
Defined.

Section Ordering.
Context {T : Type}.
Import SyncQueue.
Implicit Types (s : SyncQueue.t T) (e : SyncQueue.event T) (es : list (SyncQueue.event T)).

Lemma ordered_app_other (tr l : list obs) :
  ordered tr → (∀ b, Started b ∉ l) → ordered (tr ++ l).
Proof.
  intros Hord Hl n a b Hn Hab.
  destruct (decide (n < length tr)) as [Hlt|Hge].
  - rewrite lookup_app_l in Hn by done.
    destruct (Hord n a b Hn Hab) as (m & o & Hm & Hlk).
    exists m, o. split; [done|]. rewrite lookup_app_l by lia. done.
  - rewrite lookup_app_r in Hn by lia.
    apply list_elem_of_lookup_2 in Hn. by apply Hl in Hn.
Qed.

Lemma ordered_snoc_started (tr : list obs) b :
  ordered tr → (∀ a, a < b → ∃ o, Completed a o ∈ tr) →
  ordered (tr ++ [Started b]).
Proof.
  intros Hord Hb n a b' Hn Hab.
  destruct (decide (n < length tr)) as [Hlt|Hge].
  - rewrite lookup_app_l in Hn by done.
    destruct (Hord n a b' Hn Hab) as (m & o & Hm & Hlk).
    exists m, o. split; [done|]. rewrite lookup_app_l by lia. done.
  - rewrite lookup_app_r in Hn by lia.
    pose proof (lookup_lt_Some _ _ _ Hn) as Hlen. cbn [length] in Hlen.
    replace (n - length tr) with 0 in Hn by lia. injection Hn as <-.
    destruct (Hb a Hab) as [o Ho]. apply list_elem_of_lookup_1 in Ho as [m Hm].
    exists m, o. pose proof (lookup_lt_Some _ _ _ Hm).
    split; [lia|]. by rewrite lookup_app_l.
Qed.

Lemma serial_new : serial (new (T:=T)).
Proof.
  split; cbn; try done.
  - apply wf_new.
  - intros i Hi. lia.
  - intros i Hi. by apply elem_of_nil in Hi.
  - lia.
Qed.

Lemma serial_process s : serial s → serial (process s).
Proof.
  intros Hs. pose proof (wf_process s (serial_wf s Hs)) as Hwf'.
  unfold process in *.
  destruct (isProcessing s) eqn:Hflag; [done|].
  destruct (queue s) as [|nextTask rest] eqn:Hq; [done|].
  destruct Hs as [Hwf Hfifo Hcov Hdone Hsingle Hbusy Hord].
  destruct (Hbusy Hflag) as [Hrun Hfin].
  unfold ids in *. rewrite Hq in *. cbn [map] in *.
  split; unfold ids; cbn [queue pushed trace running finishing isProcessing map].
  - done.
  - intros n m a b Hn Hm Hnm. by apply (Hfifo (S n) (S m) a b); [..|lia].
  - intros i Hi. destruct (Hcov i Hi) as [[->|Hin]%elem_of_cons|Hst].
    + right. apply elem_of_app. right. by apply list_elem_of_singleton.
    + by left.
    + right. apply elem_of_app. by left.
  - intros i [Hi|Hi%list_elem_of_singleton]%elem_of_app.
    + destruct (Hdone i Hi) as [Hr|[o Ho]].
      * left. apply elem_of_app. by left.
      * right. exists o. apply elem_of_app. by left.
    + injection Hi as ->. left. apply elem_of_app. right.
      by apply list_elem_of_singleton.
  - rewrite Hrun, Hfin. cbn. lia.
  - discriminate.
  - apply ordered_snoc_started; [done|]. intros a Ha.
    assert (id nextTask < pushed s) as Hlt
      by (apply (wf_ids s Hwf); unfold ids; rewrite Hq; by left).
    destruct (Hcov a ltac:(lia)) as [Hin|Hst].
    + apply elem_of_cons in Hin as [->|Hin]; [lia|].
      apply list_elem_of_lookup_1 in Hin as [m Hm].
      pose proof (Hfifo 0 (S m) (id nextTask) a eq_refl Hm ltac:(lia)). lia.
    + destruct (Hdone a Hst) as [Hr|Hc]; [|done].
      rewrite Hrun in Hr. by apply elem_of_nil in Hr.
Qed.
End Ordering.

Section OrderingSteps.
Context {T : Type}.
Import SyncQueue.
Implicit Types (s : SyncQueue.t T) (e : SyncQueue.event T) (es : list (SyncQueue.event T)).

Lemma push_process d s : (push d s).2 = process (enqueued d s).
Proof. done. Qed.

Lemma ids_enqueued d s : ids (enqueued d s) = ids s ++ [pushed s].
Proof. unfold ids, enqueued. cbn [queue]. by rewrite map_app. Qed.

Lemma serial_enqueued d s : serial s → serial (enqueued d s).
Proof.
  intros [Hwf Hfifo Hcov Hdone Hsingle Hbusy Hord].
  split; rewrite ?ids_enqueued; cbn [enqueued pushed trace running finishing isProcessing];
    try done.
  - destruct Hwf as [Hids Hnd Hst Hrun Hset].
    split; rewrite ?ids_enqueued; cbn [enqueued pushed trace running]; try done.
    + intros i [Hi|Hi%list_elem_of_singleton]%elem_of_app; [|lia].
      apply Hids in Hi. lia.
    + apply NoDup_app. split_and!; [done| |apply NoDup_singleton].
      intros i Hi ->%list_elem_of_singleton. apply Hids in Hi. lia.
    + intros i Hi. destruct (Hst i Hi) as [Hlt Hnin]. split; [lia|].
      intros [?|Heq%list_elem_of_singleton]%elem_of_app; [done|lia].
  - intros n m a b Hn Hm Hnm.
    pose proof (lookup_lt_Some _ _ _ Hm) as Hlen.
    rewrite length_app in Hlen. cbn [length] in Hlen.
    rewrite lookup_app_l in Hn by lia.
    destruct (decide (m < length (ids s))) as [Hlt|Hge].
    + rewrite lookup_app_l in Hm by done. by eapply Hfifo.
    + rewrite lookup_app_r in Hm by lia.
      replace (m - length (ids s)) with 0 in Hm by lia. injection Hm as <-.
      apply (wf_ids s Hwf). by eapply list_elem_of_lookup_2.
  - intros i Hi. rewrite elem_of_app, list_elem_of_singleton.
    destruct (decide (i = pushed s)) as [->|Hne]; [by left; right|].
    destruct (Hcov i ltac:(lia)); [by left; left|by right].
Qed.

Lemma serial_push d s : serial s → serial (push d s).2.
Proof. intros Hs. rewrite push_process. by apply serial_process, serial_enqueued. Qed.

(** With at most one chain in flight, a member of a list is the list. *)
Lemma single_running i s :
  length (running s) + length (finishing s) ≤ 1 → i ∈ running s →
  running s = [i] ∧ finishing s = [].
Proof.
  intros Hle Hi. destruct (running s) as [|j [|??]], (finishing s); simpl in *;
    try lia; try (by apply elem_of_nil in Hi).
  by apply list_elem_of_singleton in Hi as ->.
Qed.

Lemma single_finishing i s :
  length (running s) + length (finishing s) ≤ 1 → i ∈ finishing s →
  running s = [] ∧ finishing s = [i].
Proof.
  intros Hle Hi. destruct (finishing s) as [|j [|??]], (running s); simpl in *;
    try lia; try (by apply elem_of_nil in Hi).
  by apply list_elem_of_singleton in Hi as ->.
Qed.

Lemma filter_ne_singleton (i : nat) : filter (λ j, j ≠ i) [i] = [].
Proof. rewrite filter_cons, decide_False by tauto. done. Qed.

Lemma serial_workerSettles i o s : serial s → serial (workerSettles i o s).
Proof.
  intros Hs. pose proof (wf_workerSettles i o s (serial_wf s Hs)) as Hwf'.
  unfold workerSettles in *. case_bool_decide as Hi; [|done].
  destruct Hs as [Hwf Hfifo Hcov Hdone Hsingle Hbusy Hord].
  destruct (single_running i s Hsingle Hi) as [Hrun Hfin].
  split; unfold ids; cbn [queue pushed trace running finishing isProcessing]; try done.
  - intros j Hj. destruct (Hcov j Hj); [by left|].
    right. apply elem_of_app. by left.
  - intros j [Hj|Hj]%elem_of_app.
    + destruct (Hdone j Hj) as [Hr|[o' Ho']].
      * rewrite Hrun in Hr. apply list_elem_of_singleton in Hr as ->.
        right. exists o. apply elem_of_app. right. by left.
      * right. exists o'. apply elem_of_app. by left.
    + apply elem_of_cons in Hj as [?|Hj]; [done|].
      by apply list_elem_of_singleton in Hj.
  - rewrite Hrun, Hfin, filter_ne_singleton. cbn. lia.
  - intros Hflag. destruct (Hbusy Hflag) as [Hr _]. by rewrite Hr in Hrun.
  - apply ordered_app_other; [done|]. intros b Hb.
    apply elem_of_cons in Hb as [?|Hb]; [done|].
    by apply list_elem_of_singleton in Hb.
Qed.

Lemma serial_finallyCallback i s : serial s → serial (finallyCallback i s).
Proof.
  intros Hs. unfold finallyCallback. case_bool_decide as Hi; [|done].
  apply serial_process.
  destruct Hs as [Hwf Hfifo Hcov Hdone Hsingle Hbusy Hord].
  destruct (single_finishing i s Hsingle Hi) as [Hrun Hfin].
  split; unfold ids; cbn [queue pushed trace running finishing isProcessing]; try done.
  - destruct Hwf. by split.
  - rewrite Hrun, Hfin, filter_ne_singleton. cbn. lia.
  - intros _. by rewrite Hrun, Hfin, filter_ne_singleton.
Qed.

Lemma serial_step s e : is_abort e = false → serial s → serial (step s e).
Proof.
  destruct e; cbn [step is_abort]; try discriminate;
    auto using serial_push, serial_process, serial_workerSettles, serial_finallyCallback.
Qed.

Lemma serial_exec es : ∀ s,
  forallb (λ e, negb (is_abort e)) es = true → serial s → serial (exec s es).
Proof.
  unfold exec. induction es as [|e es IH]; intros s Hes Hs; simpl; [done|].
  cbn [forallb] in Hes. apply andb_true_iff in Hes as [He Hes].
  apply IH; [done|]. apply serial_step; [|done]. by destruct (is_abort e).
Qed.
End OrderingSteps.

(** C1 (ordering).  In every run of the queue made of calls of [push], of
    settlements of workers and of [finally] callbacks, in any number and any
    interleaving, wherever the worker of an entry B starts, the worker of
    every entry A pushed before B has already settled, fulfilled or
    rejected. *)
Theorem push_order {T : Type} (es : list (SyncQueue.event T)) (n a b : nat) :
  forallb (λ e, negb (SyncQueue.is_abort e)) es = true →
  SyncQueue.trace (SyncQueue.exec SyncQueue.new es) !! n = Some (SyncQueue.Started b) →
  a < b →
  ∃ m o, m < n
    ∧ SyncQueue.trace (SyncQueue.exec SyncQueue.new es) !! m
      = Some (SyncQueue.Completed a o).
Proof.
  intros Hes Hn Hab.
  assert (serial (SyncQueue.exec SyncQueue.new es)) as Hs
    by by apply serial_exec, serial_new.
  by apply (serial_ordered _ Hs n a b).
Qed.

Lemma push_order_witness :
  let es := [SyncQueue.EPush "T1"; SyncQueue.EPush "T2"; SyncQueue.EPush "T3";
             SyncQueue.EWorkerSettles 0 Rejected; SyncQueue.EFinally 0;
             SyncQueue.EWorkerSettles 1 Fulfilled; SyncQueue.EFinally 1] in
  forallb (λ e, negb (SyncQueue.is_abort e)) es = true
  ∧ SyncQueue.trace (SyncQueue.exec SyncQueue.new es) !! 6 = Some (SyncQueue.Started 2)
  ∧ 0 < 2
  ∧ ∃ m o, m < 6
      ∧ SyncQueue.trace (SyncQueue.exec SyncQueue.new es) !! m
        = Some (SyncQueue.Completed 0 o).
Proof.
  cbn zeta. split_and!; [reflexivity|reflexivity|lia|].
  apply (push_order _ 6 0 2); [reflexivity|reflexivity|lia].
Defined.


(** * Further properties *)

(** ** [fastMerge] *)














(** ** The logging callback *)

Lemma Logger_exec_unregistered es : ∀ s,
  Logger.logger s = None →
  forallb (λ e, negb (Logger.is_register e)) es = true →
  Logger.exec s es = s.
Proof.
  induction es as [|e es IH]; intros s Hs Hes; [done|].
  cbn [forallb] in Hes. apply andb_true_iff in Hes as [He Hes].
  change (Logger.exec s (e :: es)) with (Logger.exec (Logger.step s e) es).
  destruct e; try discriminate;
    unfold Logger.step, Logger.logAlert, Logger.logInfo, Logger.send;
    rewrite Hs; by apply IH.
Qed.

Lemma Logger_exec_registered callback es : ∀ s,
  Logger.logger s = Some callback →
  forallb (λ e, negb (Logger.is_register e)) es = true →
  Logger.exec s es
  = Logger.mk (Some callback) (Logger.calls s ++ omap (Logger.payload callback) es).
Proof.
  induction es as [|e es IH]; intros s Hs Hes.
  - cbn. rewrite app_nil_r. destruct s. cbn in Hs. by subst.
  - cbn [forallb] in Hes. apply andb_true_iff in Hes as [He Hes].
    change (Logger.exec s (e :: es)) with (Logger.exec (Logger.step s e) es).
    destruct e; try discriminate;
      unfold Logger.step, Logger.logAlert, Logger.logInfo, Logger.send;
      rewrite Hs; (rewrite IH by done); cbn [Logger.calls omap Logger.payload];
      by rewrite <- app_assoc.
Qed.

(** Until a callback is registered, [logAlert] and [logInfo] do nothing. *)
Theorem Logger_silent_until_registered (es : list Logger.event) :
  forallb (λ e, negb (Logger.is_register e)) es = true →
  Logger.exec Logger.init es = Logger.init.
Proof. intros Hes. by apply Logger_exec_unregistered. Qed.

Lemma Logger_silent_until_registered_witness :
  forallb (λ e, negb (Logger.is_register e))
    [Logger.ELogAlert "no keys"; Logger.ELogInfo "ready"] = true
  ∧ Logger.exec Logger.init [Logger.ELogAlert "no keys"; Logger.ELogInfo "ready"]
    = Logger.init.
Proof. split; [reflexivity|]. by apply Logger_silent_until_registered. Defined.

(** After [registerLogger(callback)], whatever was registered or logged
    before, every [logAlert] and [logInfo] calls [callback] once, in order,
    with the message prefixed by "[Onyx] " and with its level; no earlier
    callback is called again. *)
Theorem Logger_delivers_to_latest (s : Logger.t) callback (es : list Logger.event) :
  forallb (λ e, negb (Logger.is_register e)) es = true →
  Logger.calls (Logger.exec s (Logger.ERegisterLogger callback :: es))
  = Logger.calls s ++ omap (Logger.payload callback) es.
Proof.
  intros Hes.
  change (Logger.exec s (Logger.ERegisterLogger callback :: es))
    with (Logger.exec (Logger.registerLogger callback s) es).
  by rewrite (Logger_exec_registered callback).
Qed.

Lemma Logger_delivers_to_latest_witness :
  let s := Logger.exec Logger.init [Logger.ERegisterLogger 1; Logger.ELogInfo "old"] in
  forallb (λ e, negb (Logger.is_register e))
    [Logger.ELogAlert "no keys"; Logger.ELogInfo "ready"] = true
  ∧ Logger.calls
      (Logger.exec s (Logger.ERegisterLogger 2
                      :: [Logger.ELogAlert "no keys"; Logger.ELogInfo "ready"]))
    = [(1, "[Onyx] old", Logger.info);
       (2, "[Onyx] no keys", Logger.alert);
       (2, "[Onyx] ready", Logger.info)].
Proof.
  cbn zeta. split; [reflexivity|].
  rewrite Logger_delivers_to_latest by reflexivity. reflexivity.
Defined.

(** ** The cache *)

Section CacheInvariants.
Import OnyxCache.

Lemma elem_of_recentKeys_access key c k :
  k ∈ recentKeys (addToAccessedKeys key c) ↔ k = key ∨ k ∈ recentKeys c.
Proof.
  cbn [addToAccessedKeys recentKeys with_recentKeys].
  rewrite JSSet_elem_of_add, JSSet_elem_of_delete.
  destruct (decide (k = key)); tauto.
Qed.

Lemma elem_of_recentKeys_foldl_access keys c k :
  k ∈ recentKeys (foldl (λ c key, addToAccessedKeys key c) c keys)
  ↔ k ∈ keys ∨ k ∈ recentKeys c.
Proof.
  revert c. induction keys as [|x keys IH]; intros c; cbn [foldl].
  - rewrite elem_of_nil. tauto.
  - rewrite IH, elem_of_recentKeys_access, elem_of_cons. tauto.
Qed.

Lemma NoDup_foldl_add l : ∀ s, NoDup s → NoDup (foldl (λ s k, JSSet.add k s) s l).
Proof.
  induction l as [|x l IH]; intros s Hs; cbn [foldl]; [done|].
  by apply IH, JSSet_NoDup_add.
Qed.

Lemma cache_inv_new : cache_inv new.
Proof.
  split; [apply known_keys_new| |apply NoDup_nil_2..].
  intros k [v Hv]. cbn in Hv. by rewrite lookup_empty in Hv.
Qed.

Lemma cache_inv_set key val c : cache_inv c → cache_inv (set key val c).2.
Proof.
  intros [Hk Hr Hnr Hnk]. split.
  - by apply known_keys_set.
  - intros k. change (recentKeys (set key val c).2)
      with (recentKeys (addToAccessedKeys key (addKey key c))).
    rewrite elem_of_recentKeys_access. cbn.
    destruct (decide (k = key)) as [->|Hne]; [by left|].
    rewrite lookup_insert_ne by done. right. by apply Hr.
  - by apply (NoDup_addToAccessedKeys key (addKey key c)).
  - by apply JSSet_NoDup_add.
Qed.

Lemma cache_inv_drop key c : cache_inv c → cache_inv (drop key c).
Proof.
  intros [Hk Hr Hnr Hnk]. split.
  - by apply known_keys_drop.
  - intros k. cbn. rewrite JSSet_elem_of_delete.
    destruct (decide (k = key)) as [->|Hne].
    + rewrite lookup_delete_eq. by intros [??].
    + rewrite lookup_delete_ne by done. split; [done|]. by apply Hr.
  - by apply JSSet_NoDup_delete.
  - by apply JSSet_NoDup_delete.
Qed.

Lemma cache_inv_foldl_drop keys c :
  cache_inv c → cache_inv (foldl (λ c key, drop key c) c keys).
Proof.
  revert c. induction keys as [|k keys IH]; intros c Hinv; cbn [foldl]; [done|].
  by apply IH, cache_inv_drop.
Qed.

Lemma cache_inv_getValue key c : cache_inv c → cache_inv (getValue key c).2.
Proof.
  intros [Hk Hr Hnr Hnk]. split; try done.
  - intros k Hs. apply elem_of_recentKeys_access. right. by apply Hr.
  - by apply NoDup_addToAccessedKeys.
Qed.

Lemma cache_inv_removeLeastRecentlyUsedKeys c :
  cache_inv c → cache_inv (removeLeastRecentlyUsedKeys c).
Proof.
  intros Hinv. unfold removeLeastRecentlyUsedKeys.
  destruct (_ <=? _)%Z; [done|]. by apply cache_inv_foldl_drop.
Qed.

(** The entries of the value map after an accepted [merge]. *)
Lemma is_Some_storageMap_merge data c k :
  merge_rejects data = false →
  is_Some (storageMap (merge data c).2 !! k) →
  k ∈ _keys data ∨ is_Some (storageMap c !! k).
Proof.
  intros Hg. rewrite storageMap_merge by done.
  destruct (merge_accepts_cases data Hg) as [[B ->]|Hprops].
  - change (objectAssignEmpty ?v) with (objProps v).
    rewrite lookup_merged by done.
    destruct (B !! k) as [sv|] eqn:HB; [|by right].
    intros _. left. unfold _keys. cbn. apply elem_of_keys. eauto.
  - assert (merged (VObj (storageMap c)) data = VObj (storageMap c)) as ->.
    { destruct data; simplify_eq/=; rewrite ?map_imap_empty;
        by rewrite left_id_L by apply _. }
    by right.
Qed.

Lemma cache_inv_merge data c : cache_inv c → cache_inv (merge data c).2.
Proof.
  intros Hinv. destruct (merge_rejects data) eqn:Hg.
  { unfold merge. fold (merge_rejects data). by rewrite Hg. }
  destruct Hinv as [Hk Hr Hnr Hnk]. split.
  - by apply known_keys_merge.
  - intros k Hs. apply is_Some_storageMap_merge in Hs; [|done].
    rewrite merge_accepted by done. cbn [snd].
    apply elem_of_recentKeys_foldl_access. destruct Hs; [by left|right].
    by apply Hr.
  - by apply NoDup_recentKeys_merge.
  - rewrite storageKeys_merge by done. by apply NoDup_foldl_add, NoDup_nil_2.
Qed.
End CacheInvariants.

Lemma cache_inv_step rt e :
  cache_inv (Runtime.cache rt) → cache_inv (Runtime.cache (Runtime.step rt e)).
Proof.
  intros Hinv. destruct e; cbn [Runtime.step Runtime.with_cache Runtime.cache].
  - by apply cache_inv_set.
  - by apply cache_inv_merge.
  - by apply cache_inv_drop.
  - by apply cache_inv_getValue.
  - by apply cache_inv_removeLeastRecentlyUsedKeys.
  - by destruct Hinv.
  - unfold Runtime.captureTask, Runtime.finally.
    destruct (Runtime.settled rt p); by destruct Hinv.
  - unfold Runtime.settle. by destruct (Runtime.settled rt (Ext id)).
  - unfold Runtime.tick. destruct (Runtime.jobs rt) as [|[[taskName q] o] rest]; [done|].
    unfold Runtime.settle. cbn. destruct (Runtime.settled rt q); by destruct Hinv.
Qed.

Lemma cache_inv_exec es : cache_inv (Runtime.cache (Runtime.exec Runtime.init es)).
Proof.
  unfold Runtime.exec. induction es as [|e es IH] using rev_ind.
  - apply cache_inv_new.
  - rewrite foldl_app. cbn [foldl]. by apply cache_inv_step.
Qed.

(** In every cache reached from a new one, [getAllKeys()] lists no key
    twice, the recently used keys hold no key twice, and every key with an
    entry in the value map is among the recently used keys. *)
Theorem cache_reachable_invariants (es : list Runtime.event) :
  let c := Runtime.cache (Runtime.exec Runtime.init es) in
  NoDup (OnyxCache.getAllKeys c)
  ∧ NoDup (OnyxCache.recentKeys c)
  ∧ ∀ k, is_Some (OnyxCache.storageMap c !! k) → k ∈ OnyxCache.recentKeys c.
Proof. cbn zeta. destruct (cache_inv_exec es) as [_ Hr Hnr Hnk]. done. Qed.

Lemma size_le_keys {V} (m : gmap string V) (l : list string) :
  (∀ k, is_Some (m !! k) → k ∈ l) → size m ≤ length l.
Proof.
  intros Hl. rewrite <- length_map_to_list, <- (length_fmap fst).
  apply submseteq_length, NoDup_submseteq; [apply NoDup_fst_map_to_list|].
  intros k Hk. apply Hl. by apply elem_of_keys.
Qed.

(** After [removeLeastRecentlyUsedKeys], a cache reached from a new one and
    whose limit is at least one holds at most that many entries. *)
Theorem removeLeastRecentlyUsedKeys_bound (es : list Runtime.event) :
  let c := Runtime.cache (Runtime.exec Runtime.init es) in
  (1 ≤ OnyxCache.maxRecentKeysSize c)%Z →
  (Z.of_nat (size (OnyxCache.storageMap (OnyxCache.removeLeastRecentlyUsedKeys c)))
   ≤ OnyxCache.maxRecentKeysSize c)%Z.
Proof.
  intros c Hone. destruct (cache_inv_exec es) as [_ Hr _ _]. fold c in Hr.
  destruct (decide (OnyxCache.maxRecentKeysSize c
                    < Z.of_nat (JSSet.size (OnyxCache.recentKeys c)))%Z) as [Hlt|Hge].
  - unfold JSSet.size in Hlt.
    pose proof (size_le_keys
      (OnyxCache.storageMap (OnyxCache.removeLeastRecentlyUsedKeys c))
      (slice (- OnyxCache.maxRecentKeysSize c) (OnyxCache.recentKeys c))) as Hsz.
    rewrite slice_negative, length_skipn in Hsz by lia.
    enough (size (OnyxCache.storageMap (OnyxCache.removeLeastRecentlyUsedKeys c))
            ≤ length (OnyxCache.recentKeys c)
              - (length (OnyxCache.recentKeys c)
                 - Z.to_nat (OnyxCache.maxRecentKeysSize c))) by lia.
    apply Hsz. intros k [v Hk].
    rewrite lookup_removeLeastRecentlyUsedKeys in Hk by done.
    rewrite <- slice_negative by lia. by destruct (decide _).
  - assert (OnyxCache.removeLeastRecentlyUsedKeys c = c) as ->.
    { unfold OnyxCache.removeLeastRecentlyUsedKeys.
      by destruct (Z.leb_spec (Z.of_nat (JSSet.size (OnyxCache.recentKeys c)))
                     (OnyxCache.maxRecentKeysSize c)); [|lia]. }
    pose proof (size_le_keys _ _ Hr). unfold JSSet.size in Hge. lia.
Qed.

Lemma removeLeastRecentlyUsedKeys_bound_witness :
  let es := [Runtime.ESetRecentKeysLimit 1; Runtime.ESet "a" (num 1);
             Runtime.ESet "b" (num 2); Runtime.ESet "c" (num 3)] in
  let c := Runtime.cache (Runtime.exec Runtime.init es) in
  (1 ≤ OnyxCache.maxRecentKeysSize c)%Z
  ∧ size (OnyxCache.storageMap c) = 3
  ∧ (Z.of_nat (size (OnyxCache.storageMap (OnyxCache.removeLeastRecentlyUsedKeys c)))
     ≤ OnyxCache.maxRecentKeysSize c)%Z.
Proof.
  cbn zeta. split_and!; [vm_compute; discriminate|reflexivity|].
  apply (removeLeastRecentlyUsedKeys_bound
           [Runtime.ESetRecentKeysLimit 1; Runtime.ESet "a" (num 1);
            Runtime.ESet "b" (num 2); Runtime.ESet "c" (num 3)]).
  vm_compute. discriminate.
Defined.

Section EvictionForgets.
Import OnyxCache.

Lemma not_elem_of_foldl_drop_mono keys : ∀ c k,
  (k ∉ storageKeys c) ∧ (k ∉ recentKeys c) →
  (k ∉ storageKeys (foldl (λ c key, drop key c) c keys))
  ∧ (k ∉ recentKeys (foldl (λ c key, drop key c) c keys)).
Proof.
  induction keys as [|x keys IH]; intros c k Hk; [done|].
  cbn [foldl]. apply IH. cbn. rewrite !JSSet_elem_of_delete. tauto.
Qed.

Lemma not_elem_of_foldl_drop keys : ∀ c k,
  k ∈ keys →
  (k ∉ storageKeys (foldl (λ c key, drop key c) c keys))
  ∧ (k ∉ recentKeys (foldl (λ c key, drop key c) c keys)).
Proof.
  induction keys as [|x keys IH]; intros c k Hk; [by apply elem_of_nil in Hk|].
  cbn [foldl]. apply elem_of_cons in Hk as [->|Hk]; [|by apply IH].
  apply not_elem_of_foldl_drop_mono. cbn. rewrite !JSSet_elem_of_delete. tauto.
Qed.
End EvictionForgets.

(** Eviction forgets the key altogether: a key that loses its entry in
    [removeLeastRecentlyUsedKeys] is also removed from the known storage
    keys, so [getAllKeys()] no longer lists it, and from the recently used
    keys. *)
Theorem evicted_key_forgotten (c : OnyxCache.t) (k : string) :
  is_Some (OnyxCache.storageMap c !! k) →
  OnyxCache.storageMap (OnyxCache.removeLeastRecentlyUsedKeys c) !! k = None →
  (k ∉ OnyxCache.getAllKeys (OnyxCache.removeLeastRecentlyUsedKeys c))
  ∧ (k ∉ OnyxCache.recentKeys (OnyxCache.removeLeastRecentlyUsedKeys c)).
Proof.
  intros [v Hk]. unfold OnyxCache.removeLeastRecentlyUsedKeys, OnyxCache.getAllKeys,
    JSSet.to_list.
  destruct (_ <=? _)%Z; [congruence|].
  rewrite lookup_storageMap_foldl_drop.
  destruct (decide (k ∈ _)) as [Hin|Hin]; [|congruence].
  intros _. by apply not_elem_of_foldl_drop.
Qed.

Lemma evicted_key_forgotten_witness :
  let c := OnyxCache.setRecentKeysLimit 1 cache_ab in
  is_Some (OnyxCache.storageMap c !! "a")
  ∧ OnyxCache.storageMap (OnyxCache.removeLeastRecentlyUsedKeys c) !! "a" = None
  ∧ ("a" ∉ OnyxCache.getAllKeys (OnyxCache.removeLeastRecentlyUsedKeys c))
  ∧ ("a" ∉ OnyxCache.recentKeys (OnyxCache.removeLeastRecentlyUsedKeys c)).
Proof.
  cbn zeta.
  assert (is_Some (OnyxCache.storageMap (OnyxCache.setRecentKeysLimit 1 cache_ab) !! "a"))
    as Hs by (vm_compute; eauto).
  assert (OnyxCache.storageMap
            (OnyxCache.removeLeastRecentlyUsedKeys
               (OnyxCache.setRecentKeysLimit 1 cache_ab)) !! "a" = None)
    as Hn by (vm_compute; reflexivity).
  split_and!; [exact Hs|exact Hn|..];
    apply (evicted_key_forgotten _ "a" Hs Hn).
Defined.










Section EvictionTwice.
Import OnyxCache.

Lemma filter_all {A} (P : A → Prop) `{∀ x, Decision (P x)} (l : list A) :
  (∀ x, x ∈ l → P x) → filter P l = l.
Proof.
  induction l as [|x l IH]; intros Hl; [done|].
  rewrite filter_cons_True by (apply Hl; left).
  rewrite IH; [done|]. intros y Hy. apply Hl. by right.
Qed.

Lemma filter_none {A} (P : A → Prop) `{∀ x, Decision (P x)} (l : list A) :
  (∀ x, x ∈ l → ¬ P x) → filter P l = [].
Proof.
  induction l as [|x l IH]; intros Hl; [done|].
  rewrite filter_cons_False by (apply Hl; left).
  apply IH. intros y Hy. apply Hl. by right.
Qed.

Lemma filter_iff {A} (P Q : A → Prop) `{∀ x, Decision (P x)} `{∀ x, Decision (Q x)}
    (l : list A) :
  (∀ x, P x ↔ Q x) → filter P l = filter Q l.
Proof.
  intros HPQ. induction l as [|x l IH]; [done|].
  destruct (decide (P x)) as [HP|HP].
  - rewrite !filter_cons_True by (done || by apply HPQ). by rewrite IH.
  - rewrite !filter_cons_False by (done || by rewrite <- HPQ). done.
Qed.

Lemma foldl_delete_filter (R : list string) : ∀ l : list string,
  foldl (λ l k, JSSet.delete k l) l R = filter (λ x, x ∉ R) l.
Proof.
  induction R as [|x R IH]; intros l; cbn [foldl].
  - symmetry. apply filter_all. intros y _. apply not_elem_of_nil.
  - rewrite IH. unfold JSSet.delete, JSSet.t. rewrite list_filter_filter.
    apply filter_iff. intros y. rewrite not_elem_of_cons. tauto.
Qed.

Lemma recentKeys_foldl_drop keys : ∀ c,
  recentKeys (foldl (λ c key, drop key c) c keys)
  = foldl (λ l k, JSSet.delete k l) (recentKeys c) keys.
Proof. induction keys as [|k keys IH]; intros c; cbn [foldl]; [done|]. by rewrite IH. Qed.

Lemma maxRecentKeysSize_foldl_drop keys : ∀ c,
  maxRecentKeysSize (foldl (λ c key, drop key c) c keys) = maxRecentKeysSize c.
Proof. induction keys as [|k keys IH]; intros c; cbn [foldl]; [done|]. by rewrite IH. Qed.

(** The keys kept by the slice are still kept after the keys outside it
    have been deleted. *)
Lemma slice_after_delete (limit : Z) (rk R : list string) k :
  (0 ≤ limit)%Z →
  (∀ x, x ∈ R → x ∉ slice (- limit) rk) →
  k ∈ slice (- limit) rk →
  k ∈ slice (- limit) (filter (λ x, x ∉ R) rk).
Proof.
  intros Hlim HR Hk.
  assert (∀ l : list string, (∀ x, x ∈ l → x ∉ R) → filter (λ x, x ∉ R) l = l)
    as Hkeep by (intros l Hl; by apply filter_all).
  destruct (decide (limit = 0%Z)) as [->|Hpos].
  { assert (∀ l : list string, slice (- 0) l = l) as Hall.
    { intros l. unfold slice. destruct (Z.ltb_spec (- 0) 0); [lia|].
      by replace (Z.to_nat _) with 0 by lia. }
    rewrite Hall in *.
    apply list_elem_of_filter. split; [|done]. intros HkR. by apply (HR k). }
  destruct (decide (limit < Z.of_nat (length rk))%Z) as [Hlt|Hge].
  - rewrite slice_negative in * by lia.
    set (n := length rk - Z.to_nat limit) in *.
    rewrite <- (take_drop n rk) at 1. rewrite filter_app.
    rewrite (Hkeep (skipn n rk)) by (intros x Hx HxR; by apply (HR x)).
    unfold slice.
    destruct (Z.ltb_spec (- limit) 0); [|lia].
    rewrite length_app, length_skipn.
    replace (Z.to_nat (Z.max (Z.of_nat (length (filter (λ x, x ∉ R) (take n rk))
                                         + (length rk - n)) + - limit) 0))
      with (length (filter (λ x, x ∉ R) (take n rk))) by (subst n; lia).
    by rewrite drop_app_length.
  - assert (slice (- limit) rk = rk) as Hall.
    { unfold slice. destruct (Z.ltb_spec (- limit) 0); [|lia].
      replace (Z.to_nat _) with 0 by lia. apply drop_0. }
    rewrite Hall in *. rewrite Hkeep by (intros x Hx HxR; by apply (HR x)).
    by rewrite Hall.
Qed.
End EvictionTwice.

(** With a limit that is not negative, running
    [removeLeastRecentlyUsedKeys] a second time removes nothing more. *)
Theorem removeLeastRecentlyUsedKeys_twice (c : OnyxCache.t) :
  (0 ≤ OnyxCache.maxRecentKeysSize c)%Z →
  OnyxCache.removeLeastRecentlyUsedKeys (OnyxCache.removeLeastRecentlyUsedKeys c)
  = OnyxCache.removeLeastRecentlyUsedKeys c.
Proof.
  intros Hlim.
  destruct (decide (OnyxCache.maxRecentKeysSize c
                    < Z.of_nat (JSSet.size (OnyxCache.recentKeys c)))%Z) as [Hlt|Hge].
  2:{ assert (OnyxCache.removeLeastRecentlyUsedKeys c = c) as Hid; [|by rewrite !Hid].
      unfold OnyxCache.removeLeastRecentlyUsedKeys.
      by destruct (Z.leb_spec (Z.of_nat (JSSet.size (OnyxCache.recentKeys c)))
                     (OnyxCache.maxRecentKeysSize c)); [|lia]. }
  set (c' := OnyxCache.removeLeastRecentlyUsedKeys c).
  assert (∀ k, OnyxCache.storageMap c' !! k
               = if decide (k ∈ slice (- OnyxCache.maxRecentKeysSize c) (OnyxCache.recentKeys c))
                 then OnyxCache.storageMap c !! k else None) as Hsm
    by (intros k; by apply lookup_removeLeastRecentlyUsedKeys).
  assert (OnyxCache.maxRecentKeysSize c' = OnyxCache.maxRecentKeysSize c
          ∧ OnyxCache.recentKeys c'
            = filter (λ x, x ∉ _difference (_keys (VObj (OnyxCache.storageMap c)))
                                (slice (- OnyxCache.maxRecentKeysSize c)
                                   (OnyxCache.recentKeys c)))
                (OnyxCache.recentKeys c)) as [Hmax Hrk].
  { subst c'. unfold OnyxCache.removeLeastRecentlyUsedKeys.
    destruct (Z.leb_spec (Z.of_nat (JSSet.size (OnyxCache.recentKeys c)))
                (OnyxCache.maxRecentKeysSize c)); [lia|].
    by rewrite maxRecentKeysSize_foldl_drop, recentKeys_foldl_drop, foldl_delete_filter. }
  unfold OnyxCache.removeLeastRecentlyUsedKeys at 1.
  destruct (_ <=? _)%Z; [done|].
  assert (_difference (_keys (VObj (OnyxCache.storageMap c')))
            (slice (- OnyxCache.maxRecentKeysSize c') (JSSet.to_list (OnyxCache.recentKeys c')))
          = []) as ->; [|done].
  unfold _difference. apply filter_none. intros k Hk Hnot. apply Hnot. clear Hnot.
  unfold _keys in Hk. cbn [_isObject ownProps] in Hk.
  apply elem_of_keys in Hk as [v Hv]. rewrite Hsm in Hv.
  destruct (decide (k ∈ _)) as [Hin|]; [|done].
  unfold JSSet.to_list. rewrite Hmax, Hrk.
  apply slice_after_delete; [done| |done].
  intros x Hx. unfold _difference in Hx. by apply list_elem_of_filter in Hx as [? _].
Qed.

Lemma removeLeastRecentlyUsedKeys_twice_witness :
  let c := OnyxCache.setRecentKeysLimit 1 cache_ab in
  (0 ≤ OnyxCache.maxRecentKeysSize c)%Z
  ∧ OnyxCache.removeLeastRecentlyUsedKeys c ≠ c
  ∧ OnyxCache.removeLeastRecentlyUsedKeys (OnyxCache.removeLeastRecentlyUsedKeys c)
    = OnyxCache.removeLeastRecentlyUsedKeys c.
Proof.
  cbn zeta. split_and!.
  - vm_compute. discriminate.
  - intros Heq. apply (f_equal (λ c, length (OnyxCache.recentKeys c))) in Heq.
    vm_compute in Heq. discriminate.
  - apply removeLeastRecentlyUsedKeys_twice. vm_compute. discriminate.
Defined.

(** ** The write sequencer: progress and start order *)

Section SequencerProgress.
Context {T : Type}.
Import SyncQueue.
Implicit Types (s : SyncQueue.t T) (e : SyncQueue.event T) (es : list (SyncQueue.event T)).

Lemma flag_inv_start s (e : entry T) (rest : list (entry T)) :
  (∀ i o, Completed i o ∈ trace s → Settled i o ∈ trace s) →
  flag_inv (mk rest true (running s ++ [id e]) (finishing s) (pushed s)
              (trace s ++ [Started (id e)])).
Proof.
  intros Hset. split; cbn [isProcessing queue trace]; [done|].
  intros i o Hi. apply elem_of_app in Hi as [Hi|Hi].
  - apply elem_of_app. left. by apply Hset.
  - apply list_elem_of_singleton in Hi. discriminate.
Qed.

Lemma flag_inv_step s e : flag_inv s → flag_inv (step s e).
Proof.
  intros [Hidle Hset]. destruct e as [d| | |i o|i]; cbn [step].
  - unfold push, process. cbn [snd isProcessing queue running finishing pushed trace].
    destruct (isProcessing s) eqn:Hp.
    + split; cbn [isProcessing trace]; [congruence|done].
    + rewrite (Hidle eq_refl). cbn [app]. by apply (flag_inv_start s (mkEntry d (pushed s)) []).
  - by split.
  - unfold process. destruct (isProcessing s) eqn:Hp; [split; [congruence|done]|].
    destruct (queue s) as [|e rest] eqn:Hq; [by split|].
    by apply flag_inv_start.
  - unfold workerSettles. case_bool_decide; [|by split].
    split; cbn [isProcessing queue trace]; [done|].
    intros j o' Hj. apply elem_of_app. apply elem_of_app in Hj as [Hj|Hj].
    + left. by apply Hset.
    + right. apply elem_of_cons in Hj as [Hj|Hj].
      * injection Hj as -> ->. right. left.
      * apply list_elem_of_singleton in Hj. discriminate.
  - unfold finallyCallback. case_bool_decide; [|by split].
    unfold process. cbn [isProcessing queue running finishing pushed trace].
    destruct (queue s) as [|e rest] eqn:Hq; [by split|].
    split; cbn [isProcessing queue trace]; [done|].
    intros j o Hj. apply elem_of_app in Hj as [Hj|Hj].
    + apply elem_of_app. left. by apply Hset.
    + apply list_elem_of_singleton in Hj. discriminate.
Qed.

Lemma flag_inv_exec es : ∀ s, flag_inv s → flag_inv (exec s es).
Proof.
  unfold exec. induction es as [|e es IH]; intros s Hs; simpl; [done|].
  by apply IH, flag_inv_step.
Qed.

Lemma flag_inv_new : flag_inv (new (T:=T)).
Proof. split; [done|]. intros i o Hi. by apply elem_of_nil in Hi. Qed.

Lemma busy_process s : serial s → busy s → busy (process s).
Proof.
  intros Hs Hb. unfold process. destruct (isProcessing s) eqn:Hp; [done|].
  destruct (queue s) as [|e rest] eqn:Hq; [done|].
  destruct (serial_busy s Hs Hp) as [Hrun Hfin].
  intros _. cbn [running finishing]. by rewrite Hrun, Hfin.
Qed.

Lemma busy_step s e : is_abort e = false → serial s → busy s → busy (step s e).
Proof.
  intros He Hs Hb. destruct e as [d| | |i o|i]; cbn [step]; try discriminate.
  - rewrite push_process. apply busy_process; [by apply serial_enqueued|done].
  - by apply busy_process.
  - unfold workerSettles. case_bool_decide as Hi; [|done].
    destruct (single_running i s (serial_single s Hs) Hi) as [Hrun Hfin].
    intros _. cbn [running finishing]. by rewrite Hrun, Hfin, filter_ne_singleton.
  - unfold finallyCallback. case_bool_decide as Hi; [|done].
    destruct (single_finishing i s (serial_single s Hs) Hi) as [Hrun Hfin].
    unfold process. cbn [isProcessing queue running finishing pushed trace].
    destruct (queue s) as [|e rest]; [done|].
    intros _. cbn [running finishing]. by rewrite Hrun, Hfin, filter_ne_singleton.
Qed.

Lemma busy_exec es : ∀ s,
  forallb (λ e, negb (is_abort e)) es = true → serial s → busy s → busy (exec s es).
Proof.
  unfold exec. induction es as [|e es IH]; intros s Hes Hs Hb; simpl; [done|].
  cbn [forallb] in Hes. apply andb_true_iff in Hes as [He Hes].
  assert (is_abort e = false) as He' by (by destruct (is_abort e)).
  apply IH; [done|by apply serial_step|by apply busy_step].
Qed.
End SequencerProgress.

(** In a run without [abort], once the flag is clear the queue is empty and
    every entry that was pushed has had its worker completed and its promise
    settled with the worker's outcome. *)
Theorem idle_all_settled {T : Type} (es : list (SyncQueue.event T)) :
  forallb (λ e, negb (SyncQueue.is_abort e)) es = true →
  SyncQueue.isProcessing (SyncQueue.exec SyncQueue.new es) = false →
  SyncQueue.queue (SyncQueue.exec SyncQueue.new es) = []
  ∧ ∀ i, i < SyncQueue.pushed (SyncQueue.exec SyncQueue.new es) →
      ∃ o, SyncQueue.Completed i o ∈ SyncQueue.trace (SyncQueue.exec SyncQueue.new es)
           ∧ SyncQueue.Settled i o ∈ SyncQueue.trace (SyncQueue.exec SyncQueue.new es).
Proof.
  intros Hes Hidle.
  pose proof (serial_exec es _ Hes serial_new) as Hs.
  pose proof (flag_inv_exec es _ flag_inv_new) as [Hq Hset].
  split; [by apply Hq|]. intros i Hi.
  destruct (serial_covered _ Hs i Hi) as [Hin|Hst].
  { unfold SyncQueue.ids in Hin. rewrite (Hq Hidle) in Hin. by apply elem_of_nil in Hin. }
  destruct (serial_done _ Hs i Hst) as [Hrun|[o Ho]].
  { rewrite (proj1 (serial_busy _ Hs Hidle)) in Hrun. by apply elem_of_nil in Hrun. }
  exists o. split; [done|by apply Hset].
Qed.

Lemma idle_all_settled_witness :
  let es := [SyncQueue.EPush "T1"; SyncQueue.EPush "T2";
             SyncQueue.EWorkerSettles 0 Rejected; SyncQueue.EFinally 0;
             SyncQueue.EWorkerSettles 1 Fulfilled; SyncQueue.EFinally 1] in
  forallb (λ e, negb (SyncQueue.is_abort e)) es = true
  ∧ SyncQueue.isProcessing (SyncQueue.exec SyncQueue.new es) = false
  ∧ SyncQueue.queue (SyncQueue.exec SyncQueue.new es) = []
  ∧ ∀ i, i < SyncQueue.pushed (SyncQueue.exec SyncQueue.new es) →
      ∃ o, SyncQueue.Completed i o ∈ SyncQueue.trace (SyncQueue.exec SyncQueue.new es)
           ∧ SyncQueue.Settled i o ∈ SyncQueue.trace (SyncQueue.exec SyncQueue.new es).
Proof.
  cbn zeta. split_and!; [reflexivity|reflexivity| |];
    apply (idle_all_settled
             [SyncQueue.EPush "T1"; SyncQueue.EPush "T2";
              SyncQueue.EWorkerSettles 0 Rejected; SyncQueue.EFinally 0;
              SyncQueue.EWorkerSettles 1 Fulfilled; SyncQueue.EFinally 1]);
    reflexivity.
Defined.

(** In a run without [abort], the flag is set exactly while one chain is
    between the start of its worker and its [finally] callback, and it is
    set whenever an entry is queued: a queued entry never waits without a
    chain that will call [process] again. *)
Theorem queued_entry_has_chain {T : Type} (es : list (SyncQueue.event T)) :
  forallb (λ e, negb (SyncQueue.is_abort e)) es = true →
  (SyncQueue.isProcessing (SyncQueue.exec SyncQueue.new es) = true
   ↔ length (SyncQueue.running (SyncQueue.exec SyncQueue.new es))
     + length (SyncQueue.finishing (SyncQueue.exec SyncQueue.new es)) = 1)
  ∧ (SyncQueue.queue (SyncQueue.exec SyncQueue.new es) ≠ [] →
     SyncQueue.isProcessing (SyncQueue.exec SyncQueue.new es) = true).
Proof.
  intros Hes.
  pose proof (serial_exec es _ Hes serial_new) as Hs.
  pose proof (flag_inv_exec es _ flag_inv_new) as [Hq _].
  assert (busy (SyncQueue.exec (SyncQueue.new (T:=T)) es)) as Hb
    by (by apply busy_exec; [|apply serial_new|]).
  split; [split; [done|]|].
  - intros Hlen. destruct (SyncQueue.isProcessing _) eqn:Hp; [done|].
    destruct (serial_busy _ Hs Hp) as [Hrun Hfin]. rewrite Hrun, Hfin in Hlen. done.
  - intros Hne. destruct (SyncQueue.isProcessing _) eqn:Hp; [done|].
    by destruct Hne; apply Hq.
Qed.

Lemma queued_entry_has_chain_witness :
  let es := [SyncQueue.EPush "T1"; SyncQueue.EPush "T2";
             SyncQueue.EWorkerSettles 0 Fulfilled] in
  forallb (λ e, negb (SyncQueue.is_abort e)) es = true
  ∧ SyncQueue.queue (SyncQueue.exec SyncQueue.new es) ≠ []
  ∧ SyncQueue.finishing (SyncQueue.exec SyncQueue.new es) = [0]
  ∧ SyncQueue.isProcessing (SyncQueue.exec SyncQueue.new es) = true.
Proof.
  cbn zeta. split_and!; [reflexivity|discriminate|reflexivity|].
  apply (queued_entry_has_chain
           [SyncQueue.EPush "T1"; SyncQueue.EPush "T2";
            SyncQueue.EWorkerSettles 0 Fulfilled]); [reflexivity|discriminate].
Defined.

Section StartOrder.
Context {T : Type}.
Import SyncQueue.
Implicit Types (s : SyncQueue.t T) (e : SyncQueue.event T) (es : list (SyncQueue.event T)).

Lemma started_snoc_started (tr : list obs) i :
  started (tr ++ [Started i]) = started tr ++ [i].
Proof. unfold started. by rewrite omap_app. Qed.

Lemma line_process s : line (process s) = line s ∧ pushed (process s) = pushed s.
Proof.
  unfold process. destruct (isProcessing s); [done|].
  destruct (queue s) as [|e rest] eqn:Hq; [done|].
  unfold line, ids. cbn [trace queue pushed]. rewrite Hq. cbn [map].
  by rewrite started_snoc_started, <- app_assoc.
Qed.

Lemma line_push d s :
  line (push d s).2 = line s ++ [pushed s] ∧ pushed (push d s).2 = S (pushed s).
Proof.
  rewrite push_process. destruct (line_process (enqueued d s)) as [-> ->].
  unfold line. rewrite ids_enqueued. cbn [enqueued trace pushed].
  by rewrite app_assoc.
Qed.

Lemma line_workerSettles i o s :
  line (workerSettles i o s) = line s ∧ pushed (workerSettles i o s) = pushed s.
Proof.
  unfold workerSettles. case_bool_decide; [|done].
  unfold line, ids, started. cbn [trace queue pushed].
  rewrite omap_app. cbn [omap]. by rewrite app_nil_r.
Qed.

Lemma line_finallyCallback i s :
  line (finallyCallback i s) = line s ∧ pushed (finallyCallback i s) = pushed s.
Proof.
  unfold finallyCallback. case_bool_decide; [|done].
  by destruct (line_process (mk (queue s) false (running s)
                               (filter (λ j, j ≠ i) (finishing s)) (pushed s) (trace s)))
    as [-> ->].
Qed.

Lemma line_exec es : ∀ s,
  forallb (λ e, negb (is_abort e)) es = true →
  line s = seq 0 (pushed s) → line (exec s es) = seq 0 (pushed (exec s es)).
Proof.
  unfold exec. induction es as [|e es IH]; intros s Hes Hs; simpl; [done|].
  cbn [forallb] in Hes. apply andb_true_iff in Hes as [He Hes].
  apply IH; [done|]. destruct e as [d| | |i o|i]; cbn [step]; try discriminate.
  - destruct (line_push d s) as [-> ->]. by rewrite Hs, seq_S.
  - by destruct (line_process s) as [-> ->].
  - by destruct (line_workerSettles i o s) as [-> ->].
  - by destruct (line_finallyCallback i s) as [-> ->].
Qed.

Lemma StronglySorted_snoc (l : list nat) x :
  StronglySorted lt l → Forall (λ y, y < x) l → StronglySorted lt (l ++ [x]).
Proof.
  induction 1 as [|a l Hl IH Ha]; intros Hx; cbn [app].
  - by repeat constructor.
  - apply Forall_cons in Hx as [Hax Hx]. constructor; [by apply IH|].
    apply Forall_app. split; [done|]. by constructor.
Qed.

Lemma line_sorted_step s e : line_sorted s → line_sorted (step s e).
Proof.
  intros [Hsort Hlt]. unfold line_sorted. destruct e as [d| | |i o|i]; cbn [step].
  - destruct (line_push d s) as [-> ->]. split.
    + by apply StronglySorted_snoc.
    + apply Forall_app. split.
      * eapply Forall_impl; [exact Hlt|]. cbn. lia.
      * repeat constructor.
  - unfold line, ids in *. cbn [abort trace queue pushed map]. rewrite app_nil_r.
    split.
    + by apply StronglySorted_app_1_l in Hsort.
    + by apply Forall_app in Hlt as [? _].
  - by destruct (line_process s) as [-> ->].
  - by destruct (line_workerSettles i o s) as [-> ->].
  - by destruct (line_finallyCallback i s) as [-> ->].
Qed.

Lemma line_sorted_exec es : ∀ s, line_sorted s → line_sorted (exec s es).
Proof.
  unfold exec. induction es as [|e es IH]; intros s Hs; simpl; [done|].
  by apply IH, line_sorted_step.
Qed.
End StartOrder.

(** In a run without [abort], the workers are called for the entries in
    exactly the order of the calls of [push], none skipped and none twice:
    the entries started so far, followed by those still queued, are
    [0, 1, ..., pushed - 1]. *)
Theorem start_order_exact {T : Type} (es : list (SyncQueue.event T)) :
  forallb (λ e, negb (SyncQueue.is_abort e)) es = true →
  started (SyncQueue.trace (SyncQueue.exec SyncQueue.new es))
    ++ SyncQueue.ids (SyncQueue.exec SyncQueue.new es)
  = seq 0 (SyncQueue.pushed (SyncQueue.exec SyncQueue.new es)).
Proof. intros Hes. by apply (line_exec es SyncQueue.new). Qed.

Lemma start_order_exact_witness :
  let es := [SyncQueue.EPush "T1"; SyncQueue.EPush "T2"; SyncQueue.EPush "T3";
             SyncQueue.EWorkerSettles 0 Rejected; SyncQueue.EFinally 0] in
  forallb (λ e, negb (SyncQueue.is_abort e)) es = true
  ∧ started (SyncQueue.trace (SyncQueue.exec SyncQueue.new es)) = [0; 1]
  ∧ started (SyncQueue.trace (SyncQueue.exec SyncQueue.new es))
      ++ SyncQueue.ids (SyncQueue.exec SyncQueue.new es)
    = seq 0 (SyncQueue.pushed (SyncQueue.exec SyncQueue.new es)).
Proof.
  cbn zeta. split_and!; [reflexivity|reflexivity|].
  apply (start_order_exact
           [SyncQueue.EPush "T1"; SyncQueue.EPush "T2"; SyncQueue.EPush "T3";
            SyncQueue.EWorkerSettles 0 Rejected; SyncQueue.EFinally 0]).
  reflexivity.
Defined.

(** In every run, with or without [abort], the workers are called in
    strictly increasing order of the entries' numbers: no entry is run
    twice, and none is run after one that was pushed later. *)
Theorem start_order_increasing {T : Type} (es : list (SyncQueue.event T)) :
  StronglySorted lt (started (SyncQueue.trace (SyncQueue.exec SyncQueue.new es)))
  ∧ NoDup (started (SyncQueue.trace (SyncQueue.exec SyncQueue.new es))).
Proof.
  assert (line_sorted (SyncQueue.exec (SyncQueue.new (T:=T)) es)) as [Hsort _].
  { apply line_sorted_exec. split; [constructor|constructor]. }
  apply StronglySorted_app_1_l in Hsort. split; [done|].
  clear -Hsort. induction Hsort as [|a l Hl IH Ha]; [constructor|].
  constructor; [|done]. intros Hin.
  rewrite Forall_forall in Ha. specialize (Ha a Hin). lia.
Qed.

(** ** Pending tasks: the record while the promise is pending *)

Section TaskHeld.
Import Runtime.

Section Shape.
Variables (P : promise * string * promise → Prop) (Q : string * promise * settlement → Prop).
Variables (settleable : promise → Prop) (ok : event → Prop).
Hypothesis Hsettle : ∀ r p o, settleable p → P r → waits_on p r → Q (r.1.2, r.2, o).
Hypothesis Hjob : ∀ j, Q j → settleable j.1.2.
Hypothesis Hcap : ∀ n p i, ok (ECaptureTask n p) → P (p, n, Wrapper i) ∧ ∀ o, Q (n, Wrapper i, o).
Hypothesis Hext : ∀ i o, ok (ESettle i o) → settleable (Ext i).

Lemma shape_settle p o rt :
  settleable p → Forall P (reactions rt) → Forall Q (jobs rt) →
  Forall P (reactions (settle p o rt)) ∧ Forall Q (jobs (settle p o rt)).
Proof using Hsettle.
  intros Hp HP HQ. unfold settle. destruct (settled rt p); [done|].
  cbn [reactions jobs]. split.
  - apply Forall_forall. intros r Hr. apply list_elem_of_filter in Hr as [_ Hr].
    rewrite Forall_forall in HP. by apply HP.
  - apply Forall_app. split; [done|]. apply Forall_forall. intros j Hj.
    apply list_elem_of_In, in_map_iff in Hj as (r & <- & Hr).
    apply list_elem_of_In, list_elem_of_filter in Hr as [Hw Hr].
    rewrite Forall_forall in HP. apply (Hsettle r p o); [done|by apply HP|done].
Qed.

Lemma shape_step rt e :
  ok e → Forall P (reactions rt) → Forall Q (jobs rt) →
  Forall P (reactions (step rt e)) ∧ Forall Q (jobs (step rt e)).
Proof using Hsettle Hjob Hcap Hext.
  intros He HP HQ. destruct e as [k v|d|k|k| |l|n p|i o|]; cbn [step]; try done.
  - destruct (Hcap n p (nextWrapper rt) He) as [HPn HQn].
    unfold captureTask, finally. destruct (settled rt p) as [o|]; cbn [snd reactions jobs with_cache].
    + split; [done|]. apply Forall_app. split; [done|]. by repeat constructor.
    + split; [|done]. apply Forall_app. split; [done|]. by repeat constructor.
  - apply shape_settle; [by apply (Hext i o)|done|done].
  - unfold tick. destruct (jobs rt) as [|[[n q] o] rest] eqn:Hjobs; [by rewrite Hjobs|].
    apply Forall_cons in HQ as [Hq HQ].
    apply shape_settle; [by apply (Hjob (n, q, o))|done|done].
Qed.
End Shape.

Lemma unused_step taskName rt e :
  captures taskName e = false → unused taskName rt → unused taskName (step rt e).
Proof.
  intros He [HP HQ].
  apply (shape_step _ _ (λ _, True) (λ e, captures taskName e = false)); try done.
  intros n p i Hn. cbn in Hn. apply bool_decide_eq_false in Hn. by repeat split.
Qed.

Lemma unused_exec taskName es : ∀ rt,
  forallb (λ e, negb (captures taskName e)) es = true →
  unused taskName rt → unused taskName (exec rt es).
Proof.
  unfold exec. induction es as [|e es IH]; intros rt Hes Hrt; simpl; [done|].
  cbn [forallb] in Hes. apply andb_true_iff in Hes as [He Hes].
  apply IH; [done|]. apply unused_step; [|done]. by destruct (captures taskName e).
Qed.

Lemma settled_settle_ne p o p' rt :
  p' ≠ p → settled (settle p o rt) p' = settled rt p'.
Proof.
  intros Hne. unfold settle. destruct (settled rt p); [done|]. cbn.
  by rewrite decide_False.
Qed.

Lemma cache_settle p o rt : cache (settle p o rt) = cache rt.
Proof. unfold settle. by destruct (settled rt p). Qed.

Lemma held_captureTask taskName id rt :
  unused taskName rt → settled rt (Ext id) = None →
  held taskName id (captureTask taskName (Ext id) rt).1
    (captureTask taskName (Ext id) rt).2.
Proof.
  intros [HP HQ] Hid. unfold held, captureTask, finally. rewrite Hid.
  cbn [fst snd cache settled reactions jobs with_cache OnyxCache.with_pendingPromises
       OnyxCache.pendingPromises].
  split_and!; [by rewrite lookup_insert_eq|done| |done].
  apply Forall_app. split; [|by repeat constructor].
  eapply Forall_impl; [exact HP|]. by intros r [Hn Hq].
Qed.

Lemma held_step taskName id q rt e :
  captures taskName e = false → settles_ext id e = false →
  held taskName id q rt → held taskName id q (step rt e).
Proof.
  intros Hc Hs (Hrec & Hid & HP & HQ).
  assert (Forall (λ r, (r.1.2 = taskName → r.1.1 = Ext id) ∧ is_wrapper r.2)
            (reactions (step rt e))
          ∧ Forall (λ j, j.1.1 ≠ taskName ∧ is_wrapper j.1.2) (jobs (step rt e)))
    as [HP' HQ'].
  { apply (shape_step _ _ (λ p, p ≠ Ext id)
             (λ e, captures taskName e = false ∧ settles_ext id e = false)); try done.
    - intros [[p0 n] q0] p o Hp [Hn Hq] Hw. unfold waits_on in Hw. cbn in *.
      split; [|done]. intros ->. subst p0. by rewrite Hn in Hp.
    - intros [[n q0] o] [_ Hq]. cbn in *. by destruct q0.
    - intros n p i [Hn _]. cbn in Hn. apply bool_decide_eq_false in Hn. by repeat split.
    - intros i o [_ Hi]. cbn in Hi. apply bool_decide_eq_false in Hi. congruence. }
  split_and!; [| |done|done]; clear HP' HQ'.
  - destruct e as [k v|d|k|k| |l|n p|i o|]; cbn [step cache with_cache]; try done.
    + by rewrite pendingPromises_merge.
    + by rewrite pendingPromises_removeLeastRecentlyUsedKeys.
    + cbn in Hc. apply bool_decide_eq_false in Hc.
      unfold captureTask, finally. destruct (settled rt p); cbn; by rewrite lookup_insert_ne.
    + by rewrite cache_settle.
    + unfold tick. destruct (jobs rt) as [|[[n q0] o] rest] eqn:Hjobs; [done|].
      apply Forall_cons in HQ as [[Hn _] _]. rewrite cache_settle. cbn in *.
      by rewrite lookup_delete_ne.
  - destruct e as [k v|d|k|k| |l|n p|i o|]; cbn [step settled with_cache]; try done.
    + unfold captureTask, finally. by destruct (settled rt p).
    + cbn in Hs. apply bool_decide_eq_false in Hs.
      rewrite settled_settle_ne; [done|congruence].
    + unfold tick. destruct (jobs rt) as [|[[n q0] o] rest] eqn:Hjobs; [done|].
      apply Forall_cons in HQ as [[_ Hq] _]. cbn in Hq.
      rewrite settled_settle_ne; [done|]. by destruct q0.
Qed.

Lemma held_exec taskName id q es : ∀ rt,
  forallb (λ e, negb (captures taskName e) && negb (settles_ext id e)) es = true →
  held taskName id q rt → held taskName id q (exec rt es).
Proof.
  unfold exec. induction es as [|e es IH]; intros rt Hes Hrt; simpl; [done|].
  cbn [forallb] in Hes. apply andb_true_iff in Hes as [He Hes].
  apply andb_true_iff in He as [Hc Hs].
  apply IH; [done|]. apply held_step; [| |done].
  - by destruct (captures taskName e).
  - by destruct (settles_ext id e).
Qed.
End TaskHeld.

(** A task stays recorded while its promise is pending: if no task was
    captured under [taskName] before, the promise [Ext id] is pending when
    it is captured, and afterwards no other task is captured under that name
    and [Ext id] is not settled, then [hasPendingTask] is true and
    [getTaskPromise] returns the promise that [captureTask] returned,
    whatever else happens to the cache and to other tasks. *)
Theorem task_recorded_while_pending (taskName : string) (id : nat)
    (before after : list Runtime.event) :
  forallb (λ e, negb (captures taskName e)) before = true →
  Runtime.settled (Runtime.exec Runtime.init before) (Ext id) = None →
  forallb (λ e, negb (captures taskName e) && negb (settles_ext id e)) after = true →
  let captured :=
    Runtime.captureTask taskName (Ext id) (Runtime.exec Runtime.init before) in
  let rt := Runtime.exec captured.2 after in
  OnyxCache.hasPendingTask taskName (Runtime.cache rt) = true
  ∧ OnyxCache.getTaskPromise taskName (Runtime.cache rt) = Some captured.1
  ∧ Runtime.settled rt (Ext id) = None.
Proof.
  intros Hbefore Hid Hafter captured rt.
  assert (unused taskName (Runtime.exec Runtime.init before)) as Hun.
  { apply unused_exec; [done|]. split; constructor. }
  pose proof (held_exec taskName id captured.1 after captured.2 Hafter
                (held_captureTask taskName id _ Hun Hid)) as (Hrec & Hs & _).
  unfold OnyxCache.hasPendingTask, OnyxCache.getTaskPromise. fold rt in Hrec, Hs.
  split_and!; [|done|done]. apply bool_decide_eq_true. by rewrite Hrec.
Qed.

Lemma task_recorded_while_pending_witness :
  let before := [Runtime.ECaptureTask "get:other" (Ext 1); Runtime.ESet "a" (num 1)] in
  let after := [Runtime.ESettle 1 Fulfilled; Runtime.ETick; Runtime.EDrop "a";
                Runtime.ECaptureTask "get:other" (Ext 2)] in
  let captured :=
    Runtime.captureTask "get:session" (Ext 0) (Runtime.exec Runtime.init before) in
  let rt := Runtime.exec captured.2 after in
  forallb (λ e, negb (captures "get:session" e)) before = true
  ∧ Runtime.settled (Runtime.exec Runtime.init before) (Ext 0) = None
  ∧ forallb (λ e, negb (captures "get:session" e) && negb (settles_ext 0 e)) after = true
  ∧ OnyxCache.hasPendingTask "get:session" (Runtime.cache rt) = true
  ∧ OnyxCache.getTaskPromise "get:session" (Runtime.cache rt) = Some captured.1
  ∧ Runtime.settled rt (Ext 0) = None.
Proof.
  cbn zeta. split_and!; [reflexivity|reflexivity|reflexivity| | |];
    apply (task_recorded_while_pending "get:session" 0
             [Runtime.ECaptureTask "get:other" (Ext 1); Runtime.ESet "a" (num 1)]
             [Runtime.ESettle 1 Fulfilled; Runtime.ETick; Runtime.EDrop "a";
              Runtime.ECaptureTask "get:other" (Ext 2)]);
    reflexivity.
Defined.

(** ** Metrics decoration *)

Section Decoration.
Import PerformanceUtils.

Lemma decorateWithMetrics_fresh alias (s : list string) :
  alias ∉ s → decorateWithMetrics alias s = Ret (s ++ [alias]).
Proof.
  intros Hs. unfold decorateWithMetrics, JSSet.add, JSSet.has.
  by rewrite !bool_decide_eq_false_2.
Qed.

Lemma decorateWithMetrics_again alias (s : list string) :
  alias ∈ s → decorateWithMetrics alias s = Throw (already_decorated alias).
Proof.
  intros Hs. unfold decorateWithMetrics, JSSet.has. by rewrite bool_decide_eq_true_2.
Qed.

Lemma decorate_distinct (l : list string) : ∀ s : list string,
  NoDup (s ++ l) →
  forEachM (λ s alias, decorateWithMetrics alias s) s l = Ret (s ++ l).
Proof.
  induction l as [|a l IH]; intros s Hnd; cbn [forEachM].
  - by rewrite app_nil_r.
  - rewrite decorateWithMetrics_fresh.
    + change (forEachM (λ s alias, decorateWithMetrics alias s) (s ++ [a]) l
              = Ret (s ++ a :: l)).
      rewrite IH; [by rewrite <- app_assoc|]. by rewrite <- app_assoc.
    + apply NoDup_app in Hnd as (_ & Hdisj & _). intros Ha. apply (Hdisj a Ha). left.
Qed.

Lemma decorate_repeated (l : list string) : ∀ s : list string,
  NoDup s → ¬ NoDup (s ++ l) →
  ∃ alias, alias ∈ l
    ∧ forEachM (λ s alias, decorateWithMetrics alias s) s l
      = Throw (already_decorated alias).
Proof.
  induction l as [|a l IH]; intros s Hs Hnd; cbn [forEachM].
  - by rewrite app_nil_r in Hnd.
  - destruct (decide (a ∈ s)) as [Ha|Ha].
    + exists a. split; [left|]. by rewrite decorateWithMetrics_again.
    + rewrite decorateWithMetrics_fresh by done.
      destruct (IH (s ++ [a])) as (alias & Hin & Hthrow).
      * apply NoDup_app. split_and!; [done| |apply NoDup_singleton].
        intros x Hx ->%list_elem_of_singleton. done.
      * by rewrite <- app_assoc.
      * exists alias. split; [by right|exact Hthrow].
Qed.
End Decoration.

(** Every alias can be decorated once: decorating a list of aliases
    succeeds, and leaves exactly these aliases decorated, if they are
    distinct; otherwise it throws for an alias of the list. *)
Theorem decorateWithMetrics_once (aliases : list string) :
  (NoDup aliases → PerformanceUtils.decorateAll aliases = Ret aliases)
  ∧ (¬ NoDup aliases →
     ∃ alias, alias ∈ aliases
       ∧ PerformanceUtils.decorateAll aliases
         = Throw (PerformanceUtils.already_decorated alias)).
Proof.
  unfold PerformanceUtils.decorateAll, JSSet.empty. split.
  - intros Hnd. by apply (decorate_distinct aliases []).
  - intros Hnd. apply (decorate_repeated aliases []); [apply NoDup_nil_2|done].
Qed.

Lemma decorateWithMetrics_once_witness :
  (NoDup ["get"; "set"] ∧ PerformanceUtils.decorateAll ["get"; "set"] = Ret ["get"; "set"])
  ∧ (¬ NoDup ["get"; "set"; "get"]
     ∧ ∃ alias, alias ∈ ["get"; "set"; "get"]
         ∧ PerformanceUtils.decorateAll ["get"; "set"; "get"]
           = Throw (PerformanceUtils.already_decorated alias)).
Proof.
  assert (NoDup ["get"; "set"]) as Hnd by (apply (bool_decide_unpack _); reflexivity).
  assert (¬ NoDup ["get"; "set"; "get"]) as Hdup
    by (apply (bool_decide_unpack _); reflexivity).
  split; (split; [done|]).
  - by apply (proj1 (decorateWithMetrics_once ["get"; "set"])).
  - by apply (proj2 (decorateWithMetrics_once ["get"; "set"; "get"])).
Defined.

(** ** Termination of the merge *)

Lemma deepmerge_enough_fuel_witness :
  let t := VObj {[ "a" := VObj {[ "x" := num 1 ]}; "b" := VArr [num 1] ]} in
  let s := VObj {[ "a" := VObj {[ "y" := num 2 ]}; "b" := VObj {[ "z" := VNull ]} ]} in
  vsize t + vsize s < 40
  ∧ Deepmerge.deepmerge_fuel 40 fastMergeOptions t s = fastMerge t s
  ∧ fastMerge t s ≠ OutOfFuel.
Proof.
  cbn zeta.
  assert (vsize (VObj {[ "a" := VObj {[ "x" := num 1 ]}; "b" := VArr [num 1] ]})
          + vsize (VObj {[ "a" := VObj {[ "y" := num 2 ]}; "b" := VObj {[ "z" := VNull ]} ]})
          < 40) as Hfuel by (vm_compute; lia).
  split; [exact Hfuel|].
  exact (deepmerge_enough_fuel _ _ 40 Hfuel).
Defined.
